(** * net-tui: the refresh / state / render loop of [main.go]

    A shallow embedding of the dashboard's navigation state machine
    ([Update], [handleKey], [clampCursor]), its scroll helpers
    ([adjustOffset], [visibleRange]), its renderer ([View] and the three
    table views), its normaliser ([fetchData], [fetchConnections],
    [fetchPorts], [fetchInterfaces]) and its formatting helpers
    ([protoString], [formatAddr], [formatBytes], [truncate]).

    Conventions of the embedding:
    - a Go [int] is a [Z] in the 64-bit signed range; every [+], [-], [++]
      and [--] of the source is written with [int_add] / [int_sub], which
      wrap around;
    - [uint32], [uint64] and [int32] values are [Z]s as well;
    - a Go [string] is a [string] of bytes, [len] is [String.length];
    - a run-time panic (index or slice bound out of range) is [None];
    - methods with a pointer receiver return the updated [model]; methods
      with a value receiver work on their own copy, so the caller keeps
      its [model];
    - what lives outside the repository (the host's connection and
      interface tables, the process table, the wall clock, the styling
      library, [sort.Slice]) is an explicit input. *)

From Stdlib Require Import ZArith Lia Ascii String List Sorting.Sorted.
From stdpp Require Import base decidable option numbers list list_numbers
  strings gmap pretty sorting.

Local Open Scope Z_scope.

(** ** Machine integers *)

Module GoInt.

Definition int_min : Z := - 2 ^ 63.
Definition int_max : Z := 2 ^ 63 - 1.
Definition uint64_max : Z := 2 ^ 64 - 1.

Definition is_int (z : Z) : Prop := int_min <= z <= int_max.
Definition is_uint64 (z : Z) : Prop := 0 <= z <= uint64_max.

(** Two's complement wrap-around of a mathematical result into [int]. *)
Definition wrap (z : Z) : Z := (z + 2 ^ 63) mod 2 ^ 64 - 2 ^ 63.

(** Wrap-around of a mathematical result into [uint64]. *)
Definition wrap_u64 (z : Z) : Z := z mod 2 ^ 64.

Definition int_add (a b : Z) : Z := wrap (a + b).
Definition int_sub (a b : Z) : Z := wrap (a - b).

(** Go's [%] truncates towards zero. *)
Definition int_rem (a b : Z) : Z := Z.rem a b.

(** The builtin [min] and [max] on [int]. *)
Definition int_min2 (a b : Z) : Z := if a <? b then a else b.
Definition int_max2 (a b : Z) : Z := if a <? b then b else a.

End GoInt.
Export GoInt.

(** ** Strings *)

(** [len(s)] *)
Definition len (s : string) : Z := Z.of_nat (String.length s).

(** [s[:n]]; the slice expression panics unless [0 <= n <= len(s)]. *)
Definition slice_to (s : string) (n : Z) : option string :=
  if (0 <=? n) && (n <=? len s)
  then Some (String.substring 0 (Z.to_nat n) s)
  else None.

(** [strings.Repeat(s, n)] for [n >= 0] (the only use, in [viewHeader],
    passes [max(_, 0)]). *)
Definition Repeat (s : string) (n : Z) : string :=
  String.concat "" (replicate (Z.to_nat n) s).

(** [strings.Join] *)
Definition Join (l : list string) (sep : string) : string :=
  String.concat sep l.

(** [%d] *)
Definition fmt_d (z : Z) : string := pretty z.

(** ** Formatting helpers *)

Definition protoString (connType family : Z) : string :=
  let proto := if connType =? 2 then "udp" else "tcp" in
  if (family =? 10) || (family =? 23) then proto +:+ "6" else proto.

Definition formatAddr (ip : string) (port : Z) : string :=
  let ip := if String.eqb ip "" then "*" else ip in
  ip +:+ ":" +:+ fmt_d port.

Definition truncate (s : string) (max : Z) : option string :=
  if len s <=? max then Some s
  else if max <=? 3 then slice_to s max
  else (fun p => p +:+ "...") <$> slice_to s (int_sub max 3).

(** *** [formatBytes]

    [float64(b)] rounds a [uint64] to 53 significant bits, ties to even;
    the result is again an integer and is returned as such. *)
Definition float64_of_uint64 (b : Z) : Z :=
  if b <? 2 ^ 53 then b
  else
    let e := Z.log2 b - 52 in
    let q := Z.shiftr b e in
    let r := Z.land b (Z.ones e) in
    let half := Z.shiftl 1 (e - 1) in
    let q' := if (half <? r) || ((r =? half) && Z.odd q) then q + 1 else q in
    Z.shiftl q' e.

(** Nearest integer to [n / d], ties to even ([0 <= n], [0 < d]). *)
Definition round_half_even (n d : Z) : Z :=
  let q := n / d in
  let r := n mod d in
  if 2 * r <? d then q
  else if d <? 2 * r then q + 1
  else if Z.even q then q else q + 1.

(** [fmt.Sprintf("%.1f", x / y)] for two floats [x], [y] holding the
    integers [num] and [den], [den] a power of two: the quotient of a float
    by a power of two is exact, and [%.1f] prints the exact value rounded
    to one decimal, ties to even. *)
Definition fmt_f1 (num den : Z) : string :=
  let tenths := round_half_even (10 * num) den in
  fmt_d (tenths / 10) +:+ "." +:+ fmt_d (tenths mod 10).

Definition unit : Z := 1024.

(** The loop [for n := b / unit; n >= unit; n /= unit { div *= unit; exp++ }];
    [fuel] bounds the number of iterations. *)
Fixpoint scale_loop (fuel : nat) (n div exp : Z) : Z * Z * Z :=
  match fuel with
  | O => (n, div, exp)
  | S fuel' =>
      if unit <=? n
      then scale_loop fuel' (n / unit) (wrap_u64 (div * unit)) (int_add exp 1)
      else (n, div, exp)
  end.

(** Each iteration divides [n] by 1024, so one more than [log2 n]
    iterations always reach the exit test. *)
Definition scale_fuel (n : Z) : nat := S (Z.to_nat (Z.log2 n)).

(** ["KMGTPE"[exp]]; indexing panics out of range. *)
Definition unit_prefix (exp : Z) : option ascii :=
  if 0 <=? exp then String.get (Z.to_nat exp) "KMGTPE" else None.

Definition formatBytes (b : Z) : option string :=
  if b <? unit then Some (fmt_d b +:+ " B")
  else
    let '(_, div, exp) := scale_loop (scale_fuel (b / unit)) (b / unit) unit 0 in
    c ← unit_prefix exp;
    Some (fmt_f1 (float64_of_uint64 b) div +:+ " " +:+ String c "B").


(** ** Data types *)

Record connection := {
  c_proto : string;
  c_local : string;
  c_remote : string;
  c_state : string;
  c_pid : Z;
  c_process : string
}.

Record port := {
  p_port : Z;
  p_proto : string;
  p_addr : string;
  p_pid : Z;
  p_process : string
}.

Record iface := {
  i_name : string;
  i_up : bool;
  i_addrs : list string;
  i_rx : Z;
  i_tx : Z
}.

(** [dataMsg]: carries refreshed network data. *)
Record dataMsg := {
  d_connections : list connection;
  d_ports : list port;
  d_interfaces : list iface
}.

(** ** Model *)

(** [type tab int] with its three [iota] constants. *)
Definition tab : Type := Z.
Definition tabConnections : tab := 0.
Definition tabPorts : tab := 1.
Definition tabInterfaces : tab := 2.

Definition is_tab (t : tab) : Prop :=
  t = tabConnections \/ t = tabPorts \/ t = tabInterfaces.

(** [tab.String]: indexing the three-element array panics out of range. *)
Definition tab_String (t : tab) : option string :=
  if 0 <=? t then ["Connections"; "Ports"; "Interfaces"] !! Z.to_nat t
  else None.

Record model := {
  m_tab : tab;
  m_cursor : Z;
  m_offset : Z;
  m_width : Z;
  m_height : Z;
  m_connections : list connection;
  m_ports : list port;
  m_interfaces : list iface
}.

Definition newModel : model :=
  {| m_tab := tabConnections; m_cursor := 0; m_offset := 0;
     m_width := 0; m_height := 0;
     m_connections := []; m_ports := []; m_interfaces := [] |}.

Definition set_tab (t : tab) (m : model) : model :=
  {| m_tab := t; m_cursor := m_cursor m; m_offset := m_offset m;
     m_width := m_width m; m_height := m_height m;
     m_connections := m_connections m; m_ports := m_ports m;
     m_interfaces := m_interfaces m |}.

Definition set_cursor (c : Z) (m : model) : model :=
  {| m_tab := m_tab m; m_cursor := c; m_offset := m_offset m;
     m_width := m_width m; m_height := m_height m;
     m_connections := m_connections m; m_ports := m_ports m;
     m_interfaces := m_interfaces m |}.

Definition set_offset (o : Z) (m : model) : model :=
  {| m_tab := m_tab m; m_cursor := m_cursor m; m_offset := o;
     m_width := m_width m; m_height := m_height m;
     m_connections := m_connections m; m_ports := m_ports m;
     m_interfaces := m_interfaces m |}.

Definition set_size (w h : Z) (m : model) : model :=
  {| m_tab := m_tab m; m_cursor := m_cursor m; m_offset := m_offset m;
     m_width := w; m_height := h;
     m_connections := m_connections m; m_ports := m_ports m;
     m_interfaces := m_interfaces m |}.

Definition set_data (d : dataMsg) (m : model) : model :=
  {| m_tab := m_tab m; m_cursor := m_cursor m; m_offset := m_offset m;
     m_width := m_width m; m_height := m_height m;
     m_connections := d_connections d; m_ports := d_ports d;
     m_interfaces := d_interfaces d |}.

(** [len] of a slice. *)
Definition slice_len {A} (l : list A) : Z := Z.of_nat (length l).

(** [l[i]]; indexing panics unless [0 <= i < len(l)]. *)
Definition index {A} (l : list A) (i : Z) : option A :=
  if 0 <=? i then l !! Z.to_nat i else None.

Definition listLen (m : model) : Z :=
  if m_tab m =? tabConnections then slice_len (m_connections m)
  else if m_tab m =? tabPorts then slice_len (m_ports m)
  else if m_tab m =? tabInterfaces then slice_len (m_interfaces m)
  else 0.

Definition clampCursor (m : model) : model :=
  let max := int_sub (listLen m) 1 in
  let max := if max <? 0 then 0 else max in
  if max <? m_cursor m then set_cursor max m else m.

(** ** Messages and commands *)

Inductive msg :=
| KeyMsg (key : string)
| WindowSizeMsg (Width Height : Z)
| tickMsg
| DataMsg (d : dataMsg)
| otherMsg.

Inductive cmd :=
| cmdNil
| cmdQuit
| cmdFetchAndTick.

Definition key_in (k : string) (ks : list string) : bool :=
  existsb (String.eqb k) ks.

Definition handleKey (m : model) (k : string) : model * cmd :=
  if key_in k ["q"; "ctrl+c"] then (m, cmdQuit)
  else if key_in k ["tab"; "l"; "right"] then
    (set_offset 0 (set_cursor 0
       (set_tab (int_rem (int_add (m_tab m) 1) 3) m)), cmdNil)
  else if key_in k ["shift+tab"; "h"; "left"] then
    (set_offset 0 (set_cursor 0
       (set_tab (int_rem (int_add (m_tab m) 2) 3) m)), cmdNil)
  else if key_in k ["j"; "down"] then
    (clampCursor (set_cursor (int_add (m_cursor m) 1) m), cmdNil)
  else if key_in k ["k"; "up"] then
    (if 0 <? m_cursor m then set_cursor (int_sub (m_cursor m) 1) m else m,
     cmdNil)
  else if key_in k ["g"; "home"] then
    (set_offset 0 (set_cursor 0 m), cmdNil)
  else if key_in k ["G"; "end"] then
    (clampCursor (set_cursor (int_sub (listLen m) 1) m), cmdNil)
  else if key_in k ["1"] then
    (set_offset 0 (set_cursor 0 (set_tab tabConnections m)), cmdNil)
  else if key_in k ["2"] then
    (set_offset 0 (set_cursor 0 (set_tab tabPorts m)), cmdNil)
  else if key_in k ["3"] then
    (set_offset 0 (set_cursor 0 (set_tab tabInterfaces m)), cmdNil)
  else (m, cmdNil).

Definition Update (m : model) (x : msg) : model * cmd :=
  match x with
  | KeyMsg k => handleKey m k
  | WindowSizeMsg w h => (set_size w h m, cmdNil)
  | tickMsg => (m, cmdFetchAndTick)
  | DataMsg d => (clampCursor (set_data d m), cmdNil)
  | otherMsg => (m, cmdNil)
  end.

(** The coordinator loop: messages are processed one at a time, in
    arrival order, each on the model the previous one returned. *)
Definition run (m : model) (xs : list msg) : model :=
  fold_left (fun m x => fst (Update m x)) xs m.

(** The states the program can be in: those some message sequence leads
    to from [newModel]. *)
Definition reachable (m : model) : Prop := exists xs, m = run newModel xs.

(** ** Scroll helpers *)

Record visibleRange := { start : Z; end_ : Z }.

Definition adjustOffset (m : model) (pageSize : Z) : model :=
  if m_cursor m <? m_offset m then set_offset (m_cursor m) m
  else if int_add (m_offset m) pageSize <=? m_cursor m then
    set_offset (int_add (int_sub (m_cursor m) pageSize) 1) m
  else m.

Definition visibleRange_of (m : model) (total pageSize : Z) : visibleRange :=
  {| start := m_offset m;
     end_ := int_min2 (int_add (m_offset m) pageSize) total |}.

(** The values [i] takes in [for i := visible.start; i < visible.end; i++],
    in order. *)
Definition loop_indices (v : visibleRange) : list Z :=
  seqZ (start v) (end_ v - start v).

(** ** What the renderer takes from outside the repository *)

(** The fields of the [styles] table. *)
Module styles.
Inductive style :=
| title | dim | header | selected | tabActive | tabInactive
| stateUp | stateDown.
End styles.

(** [lipgloss]: what [Style.Render] returns for each entry of the style
    table, and [lipgloss.Width]. *)
Class Lipgloss := {
  Render : styles.style -> string -> string;
  lipgloss_Width : string -> Z
}.

(** [utf8.RuneCountInString], by which [fmt] measures a string when it
    pads to a width. *)
Class Utf8 := {
  RuneCountInString : string -> Z
}.

(** The wall clock as [time.Now()] reports it. *)
Record Time := { Hour : Z; Minute : Z; Second : Z }.

Definition two_digits (z : Z) : string :=
  if z <? 10 then "0" +:+ fmt_d z else fmt_d z.

(** [t.Format("15:04:05")] *)
Definition Format_150405 (t : Time) : string :=
  two_digits (Hour t) +:+ ":" +:+ two_digits (Minute t) +:+ ":" +:+
  two_digits (Second t).

(** A terminal without colour support: styles render their text as it is
    and every byte is one cell wide (exact for ASCII text). *)
Definition plain_lipgloss : Lipgloss :=
  {| Render := fun _ s => s; lipgloss_Width := len |}.

Definition ascii_utf8 : Utf8 := {| RuneCountInString := len |}.

Definition nl : string := String (ascii_of_nat 10) "".

Section Renderer.
Context {LG : Lipgloss} {U8 : Utf8}.

(** The verbs [%-Ns] and [%-Nd]: pad with spaces on the right up to [N]
    runes. *)
Definition fmt_left_s (width : Z) (s : string) : string :=
  s +:+ Repeat " " (width - RuneCountInString s).

(** A five-column format ["%-as %-bs %-cs %-ds %s"], applied to columns
    already turned into text. *)
Definition Sprintf_row (w1 : Z) (a : string) (w2 : Z) (b : string)
    (w3 : Z) (c : string) (w4 : Z) (d : string) (e : string) : string :=
  fmt_left_s w1 a +:+ " " +:+ fmt_left_s w2 b +:+ " " +:+
  fmt_left_s w3 c +:+ " " +:+ fmt_left_s w4 d +:+ " " +:+ e.

Definition viewHeader (now : Time) (m : model) : string :=
  let title := Render styles.title " net-tui " in
  let clock := Render styles.dim (Format_150405 now) in
  let gap := int_max2 (int_sub (int_sub (m_width m) (lipgloss_Width title))
                               (lipgloss_Width clock)) 0 in
  title +:+ Repeat " " gap +:+ clock +:+ nl.

Definition viewTabs (m : model) : option string :=
  tabs ← mapM (fun i : Z =>
      let t : tab := i in
      let style := if t =? m_tab m then styles.tabActive
                   else styles.tabInactive in
      name ← tab_String t;
      Some (Render style (" " +:+ name +:+ " "))) (seqZ 0 3);
  Some (Join tabs " " +:+ nl).

Definition viewFooter (m : model) : string :=
  let help := "q quit • tab/1-3 switch • j/k navigate" in
  nl +:+ Render styles.dim help.

(** *** The three table views

    Each has a pointer receiver: [adjustOffset] writes the receiver's
    [offset], so each returns the receiver next to its text. *)

Definition highlight (m : model) (i : Z) (line : string) : string :=
  (if i =? m_cursor m then Render styles.selected line else line) +:+ nl.

Definition connection_row (m : model) (i : Z) : option string :=
  c ← index (m_connections m) i;
  lo ← truncate (c_local c) 21;
  re ← truncate (c_remote c) 21;
  pr ← truncate (c_process c) 15;
  Some (highlight m i
          (Sprintf_row 7 (c_proto c) 21 lo 21 re 11 (c_state c) pr)).

Definition viewConnections (m : model) (height : Z) : option (string * model) :=
  let header := Sprintf_row 7 "PROTO" 21 "LOCAL" 21 "REMOTE" 11 "STATE"
                            "PROCESS" in
  let m := adjustOffset m (int_sub height 1) in
  let visible :=
    visibleRange_of m (slice_len (m_connections m)) (int_sub height 1) in
  rows ← mapM (connection_row m) (loop_indices visible);
  Some (Render styles.header header +:+ nl +:+ String.concat "" rows +:+
        Render styles.dim
          (nl +:+ fmt_d (slice_len (m_connections m)) +:+ " connections"),
        m).

Definition port_row (m : model) (i : Z) : option string :=
  p ← index (m_ports m) i;
  let addr := p_addr p in
  let addr :=
    if String.eqb addr "" || String.eqb addr "0.0.0.0" || String.eqb addr "::"
    then "*" else addr in
  pr ← truncate (p_process p) 20;
  Some (highlight m i
          (Sprintf_row 7 (fmt_d (p_port p)) 7 (p_proto p) 16 addr
                       8 (fmt_d (p_pid p)) pr)).

Definition viewPorts (m : model) (height : Z) : option (string * model) :=
  let header := Sprintf_row 7 "PORT" 7 "PROTO" 16 "ADDRESS" 8 "PID"
                            "PROCESS" in
  let m := adjustOffset m (int_sub height 1) in
  let visible :=
    visibleRange_of m (slice_len (m_ports m)) (int_sub height 1) in
  rows ← mapM (port_row m) (loop_indices visible);
  Some (Render styles.header header +:+ nl +:+ String.concat "" rows +:+
        Render styles.dim
          (nl +:+ fmt_d (slice_len (m_ports m)) +:+ " listening ports"),
        m).

Definition interface_row (m : model) (i : Z) : option string :=
  ifc ← index (m_interfaces m) i;
  let state := if i_up ifc then Render styles.stateUp "up"
               else Render styles.stateDown "down" in
  let addr := match i_addrs ifc with a :: _ => a | [] => "-" end in
  ad ← truncate addr 22;
  rx ← formatBytes (i_rx ifc);
  tx ← formatBytes (i_tx ifc);
  Some (highlight m i (Sprintf_row 12 (i_name ifc) 6 state 22 ad 12 rx tx)).

Definition viewInterfaces (m : model) (height : Z) : option (string * model) :=
  let header := Sprintf_row 12 "NAME" 6 "STATE" 22 "ADDRESS" 12 "RX" "TX" in
  let m := adjustOffset m (int_sub height 1) in
  let visible :=
    visibleRange_of m (slice_len (m_interfaces m)) (int_sub height 1) in
  rows ← mapM (interface_row m) (loop_indices visible);
  Some (Render styles.header header +:+ nl +:+ String.concat "" rows +:+
        Render styles.dim
          (nl +:+ fmt_d (slice_len (m_interfaces m)) +:+ " interfaces"),
        m).

(** The local [height] of [viewContent]: the viewport height less the five
    rows of header, tabs and footer, floored at 1. *)
Definition content_height (m : model) : Z :=
  let height := int_sub (m_height m) 5 in
  if height <? 1 then 1 else height.

(** The page size each table view hands to [adjustOffset] and
    [visibleRange]: its [height - 1]. *)
Definition page_size (m : model) : Z := int_sub (content_height m) 1.

(** The table view of the active tab, run on [viewContent]'s own copy of
    the model; [None] in the outer option is a panic, in the inner one the
    fall-through of the [switch]. *)
Definition viewActive (m : model) : option (option (string * model)) :=
  let height := content_height m in
  if m_tab m =? tabConnections then Some <$> viewConnections m height
  else if m_tab m =? tabPorts then Some <$> viewPorts m height
  else if m_tab m =? tabInterfaces then Some <$> viewInterfaces m height
  else Some None.

(** [viewContent] has a value receiver: the copy its table view wrote to is
    dropped on return. *)
Definition viewContent (m : model) : option string :=
  r ← viewActive m;
  Some (match r with Some (s, _) => s | None => "" end).

(** [View] renders the entire UI. *)
Definition View (now : Time) (m : model) : option string :=
  if m_width m =? 0 then Some "loading..."
  else
    tabs ← viewTabs m;
    content ← viewContent m;
    Some (viewHeader now m +:+ tabs +:+ nl +:+ content +:+ viewFooter m).

End Renderer.

(** ** The renderer on a store

    The same renderer with the memory it runs in made explicit, to follow
    what a call can write. A store maps the address of each [model]
    variable to its value. A method with a value receiver runs on a copy
    of the receiver at a fresh address, which is gone when the call
    returns; a method with a pointer receiver reads and writes the variable
    whose address it is given. *)

Section RendererOnStore.
Context {LG : Lipgloss} {U8 : Utf8}.

(** A call [m.f(...)] of a method with a value receiver: the receiver's
    value is copied to a fresh address, the body runs with that address,
    and the copy is dropped on return. *)
Definition call_by_value {A} (m : model)
    (body : nat -> gmap nat model -> option (A * gmap nat model))
    (st : gmap nat model) : option (A * gmap nat model) :=
  let a := fresh (dom st) in
  r ← body a (<[a := m]> st);
  Some (fst r, delete a (snd r)).

(** A call [p.view(height)] of a table view through the pointer [p]: the
    view reads the variable at [p] and writes back what it changed. *)
Definition call_table_view (view : model -> Z -> option (string * model))
    (p : nat) (height : Z) (st : gmap nat model)
    : option (string * gmap nat model) :=
  m ← st !! p;
  r ← view m height;
  Some (fst r, <[p := snd r]> st).

(** The body of [viewContent], its receiver [m] being the variable at
    [a]: [m.viewConnections(height)] passes [&m]. *)
Definition viewContent_body (a : nat) (st : gmap nat model)
    : option (string * gmap nat model) :=
  m ← st !! a;
  let height := content_height m in
  if m_tab m =? tabConnections then call_table_view viewConnections a height st
  else if m_tab m =? tabPorts then call_table_view viewPorts a height st
  else if m_tab m =? tabInterfaces then
    call_table_view viewInterfaces a height st
  else Some ("", st).

(** The body of [View], its receiver [m] being the variable at [a]; each
    of [m.viewHeader()], [m.viewTabs()], [m.viewContent()] and
    [m.viewFooter()] is handed the value [m] has when it is called. *)
Definition View_body (now : Time) (a : nat) (st : gmap nat model)
    : option (string * gmap nat model) :=
  m ← st !! a;
  if m_width m =? 0 then Some ("loading...", st)
  else
    let header := viewHeader now m in
    tabs ← viewTabs m;
    r ← call_by_value m viewContent_body st;
    m' ← snd r !! a;
    Some (header +:+ tabs +:+ nl +:+ fst r +:+ viewFooter m', snd r).

(** The runtime's call [m.View()] for the model it keeps at [p], at the
    time [now]: the frame and the store afterwards, or a panic. *)
Definition run_View (now : Time) (p : nat) (st : gmap nat model)
    : option (string * gmap nat model) :=
  m ← st !! p;
  call_by_value m (View_body now) st.

End RendererOnStore.

(** ** What the normaliser takes from outside the repository *)

(** [psnet.Addr] and the fields of [psnet.ConnectionStat] the code reads. *)
Record Addr := { IP : string; Port : Z }.

Record ConnectionStat := {
  Family : Z;
  Type_ : Z;
  Laddr : Addr;
  Raddr : Addr;
  Status : string;
  Pid : Z
}.

(** [net.Interface] with the outcome of its [Addrs()] method ([None] is an
    error, otherwise the [String()] of each address). *)
Record Interface := {
  Name : string;
  Flags : Z;
  Addrs : option (list string)
}.

Definition FlagUp : Z := 1.
Definition FlagLoopback : Z := 4.

Record IOCountersStat := {
  io_Name : string;
  BytesSent : Z;
  BytesRecv : Z
}.

(** One acquisition pass as the host answers it. [None] is a call that
    returned an error. [psnet.Connections] is called twice in a pass, once
    by [fetchConnections] and once by [fetchPorts]. [IOCounters] is the
    slice [psnet.IOCounters(true)] returned, whatever its error was: the
    code discards the error. *)
Record host := {
  Connections_for_connections : option (list ConnectionStat);
  Connections_for_ports : option (list ConnectionStat);
  Interfaces : option (list Interface);
  IOCounters : list IOCountersStat;
  ProcessName : Z -> option string
}.

(** [sort.Slice] with the comparison [result[i].port < result[j].port]:
    some rearrangement of the slice in which no record is followed by one
    with a smaller port. The order among equal ports is not fixed. *)
Definition port_le (a b : port) : Prop := p_port a <= p_port b.

Class SortSlice := {
  sort_Slice : list port -> list port;
  sort_Slice_Permutation : forall l, sort_Slice l ≡ₚ l;
  sort_Slice_Sorted : forall l, StronglySorted port_le (sort_Slice l)
}.

(** ** Data fetching *)

Section Fetch.
Context (h : host).

Definition getProcessName (pid : Z) (cache : gmap Z string)
    : string * gmap Z string :=
  match cache !! pid with
  | Some name => (name, cache)
  | None =>
      let name := default "" (ProcessName h pid) in
      (name, <[pid := name]> cache)
  end.

Definition connection_of (c : ConnectionStat) (process : string) : connection :=
  {| c_proto := protoString (Type_ c) (Family c);
     c_local := formatAddr (IP (Laddr c)) (Port (Laddr c));
     c_remote := formatAddr (IP (Raddr c)) (Port (Raddr c));
     c_state := Status c;
     c_pid := Pid c;
     c_process := process |}.

(** One iteration of the loop of [fetchConnections] on [result] and
    [procCache]. *)
Definition fetchConnections_step (st : list connection * gmap Z string)
    (c : ConnectionStat) : list connection * gmap Z string :=
  let '(result, procCache) := st in
  if String.eqb (Status c) "" then st
  else
    let '(process, procCache) :=
      if 0 <? Pid c then getProcessName (Pid c) procCache
      else ("", procCache) in
    (result ++ [connection_of c process], procCache).

Definition fetchConnections : list connection :=
  match Connections_for_connections h with
  | None => []
  | Some conns => fst (fold_left fetchConnections_step conns ([], ∅))
  end.

(** [fmt.Sprintf("%d-%d", c.Laddr.Port, c.Type)] *)
Definition port_key (c : ConnectionStat) : string :=
  fmt_d (Port (Laddr c)) +:+ "-" +:+ fmt_d (Type_ c).

Definition port_of (c : ConnectionStat) (process : string) : port :=
  {| p_port := Port (Laddr c);
     p_proto := protoString (Type_ c) (Family c);
     p_addr := IP (Laddr c);
     p_pid := Pid c;
     p_process := process |}.

(** One iteration of the loop of [fetchPorts] on [seen], [result] and
    [procCache]; reading a missing key of [seen] gives [false]. *)
Definition fetchPorts_step
    (st : gmap string bool * list port * gmap Z string)
    (c : ConnectionStat) : gmap string bool * list port * gmap Z string :=
  let '(seen, result, procCache) := st in
  if negb (String.eqb (Status c) "LISTEN") then st
  else
    let key := port_key c in
    if default false (seen !! key) then st
    else
      let seen := <[key := true]> seen in
      let '(process, procCache) :=
        if 0 <? Pid c then getProcessName (Pid c) procCache
        else ("", procCache) in
      (seen, result ++ [port_of c process], procCache).

(** The slice [result] of [fetchPorts] when its loop ends, before it is
    sorted. *)
Definition fetchPorts_loop (conns : list ConnectionStat) : list port :=
  snd (fst (fold_left fetchPorts_step conns (∅, [], ∅))).

Definition fetchPorts `{SortSlice} : list port :=
  match Connections_for_ports h with
  | None => []
  | Some conns => sort_Slice (fetchPorts_loop conns)
  end.

Definition iface_of (ioMap : gmap string IOCountersStat) (ni : Interface)
    : iface :=
  {| i_name := Name ni;
     i_up := negb (Z.land (Flags ni) FlagUp =? 0);
     i_addrs := default [] (Addrs ni);
     i_rx := from_option BytesRecv 0 (ioMap !! Name ni);
     i_tx := from_option BytesSent 0 (ioMap !! Name ni) |}.

Definition fetchInterfaces : list iface :=
  match Interfaces h with
  | None => []
  | Some netIfaces =>
      let counters := IOCounters h in
      let ioMap :=
        fold_left (fun (ioMap : gmap string IOCountersStat) c =>
                     <[io_Name c := c]> ioMap) counters ∅ in
      fold_left (fun result ni =>
                   if negb (Z.land (Flags ni) FlagLoopback =? 0) then result
                   else result ++ [iface_of ioMap ni])
                netIfaces []
  end.

Definition fetchData `{SortSlice} : dataMsg :=
  {| d_connections := fetchConnections;
     d_ports := fetchPorts;
     d_interfaces := fetchInterfaces |}.

End Fetch.

(** An implementation of [sort.Slice]'s contract, to run [fetchPorts] on
    concrete tables. *)
#[local] Instance port_le_dec a b : Decision (port_le a b).
Proof. unfold port_le. apply _. Defined.

#[local] Instance port_le_total : Total port_le.
Proof. intros a b. unfold port_le. lia. Qed.

#[local] Instance port_le_trans : Transitive port_le.
Proof. intros a b c. unfold port_le. lia. Qed.

Definition merge_SortSlice : SortSlice :=
  {| sort_Slice := merge_sort port_le;
     sort_Slice_Permutation := merge_sort_Permutation port_le;
     sort_Slice_Sorted := StronglySorted_merge_sort port_le |}.

(** ** Vocabulary of the properties *)

(** *** Navigation *)

(** The model's numbers are Go [int]s and its slices have a Go length. *)
Definition model_ints (m : model) : Prop :=
  is_int (m_cursor m) /\ is_int (m_offset m) /\
  is_int (m_width m) /\ is_int (m_height m) /\
  slice_len (m_connections m) <= int_max /\
  slice_len (m_ports m) <= int_max /\
  slice_len (m_interfaces m) <= int_max.

(** The lists a data refresh brings have a Go length. *)
Definition msg_ints (x : msg) : Prop :=
  match x with
  | DataMsg d =>
      slice_len (d_connections d) <= int_max /\
      slice_len (d_ports d) <= int_max /\
      slice_len (d_interfaces d) <= int_max
  | WindowSizeMsg w h => is_int w /\ is_int h
  | _ => True
  end.

(** The cursor invariant of the navigation state. *)
Definition cursor_inv (m : model) : Prop :=
  0 <= m_cursor m <= Z.max (listLen m - 1) 0.

(** The scroll-follow invariant for a page of [pageSize] rows. *)
Definition scroll_follow_inv (m : model) (pageSize : Z) : Prop :=
  m_offset m <= m_cursor m < m_offset m + pageSize.

(** The keys of the input surface, by command. *)
Definition tab_forward_keys : list string := ["tab"; "l"; "right"].
Definition tab_backward_keys : list string := ["shift+tab"; "h"; "left"].
Definition tab_select_keys : list string := ["1"; "2"; "3"].

(** The jump-end keys. *)
Definition is_jump_end (x : msg) : Prop :=
  x = KeyMsg "G" \/ x = KeyMsg "end".

(** *** Rendering *)

(** The first [n] bytes of [s]. *)
Definition first_bytes (n : Z) (s : string) : string :=
  String.substring 0 (Z.to_nat n) s.

(** The byte counters of the model's interface records are [uint64]s. *)
Definition counters_uint64 (m : model) : Prop :=
  Forall (fun ifc => is_uint64 (i_rx ifc) /\ is_uint64 (i_tx ifc))
         (m_interfaces m).

(** *** Normaliser *)

(** What the key of [fetchPorts] is made of: the local port and the socket
    type code. *)
Definition port_type (c : ConnectionStat) : Z * Z :=
  (Port (Laddr c), Type_ c).

(** The [uint32] fields the key is printed from. *)
Definition uint32_fields (c : ConnectionStat) : Prop :=
  0 <= Port (Laddr c) < 2 ^ 32 /\ 0 <= Type_ c < 2 ^ 32.

(** The process name the normaliser attaches to an entry: the looked-up
    name for a positive process id, empty when the lookup fails or the id
    is not positive. *)
Definition process_of (h : host) (c : ConnectionStat) : string :=
  if 0 <? Pid c then default "" (ProcessName h (Pid c)) else "".

(** The port record derived from a raw entry. *)
Definition port_record (h : host) (c : ConnectionStat) : port :=
  port_of c (process_of h c).

(** Entry [c] sits at position [i] of the enumeration, is listening, and
    no listening entry before it has its port and type code. *)
Definition first_listener (conns : list ConnectionStat) (i : nat)
    (c : ConnectionStat) : Prop :=
  conns !! i = Some c /\ Status c = "LISTEN" /\
  forall j d, (j < i)%nat -> conns !! j = Some d -> Status d = "LISTEN" ->
              port_type d <> port_type c.

(** Strictly ascending port numbers. *)
Definition port_lt (a b : port) : Prop := p_port a < p_port b.

(** The interfaces the normaliser keeps: those not flagged loopback. *)
Definition not_loopback (ni : Interface) : Prop :=
  Z.land (Flags ni) FlagLoopback = 0.

#[local] Instance not_loopback_dec ni : Decision (not_loopback ni).
Proof. unfold not_loopback. apply _. Defined.

(** No byte of the string is a dash. *)
Fixpoint no_dash (s : string) : Prop :=
  match s with
  | EmptyString => True
  | String a s' => a <> "-"%char /\ no_dash s'
  end.

(** *** Loop invariants of the normaliser *)

(** The process-name cache only holds what the lookup answers. *)
Definition cache_ok (h : host) (cache : gmap Z string) : Prop :=
  forall pid n, cache !! pid = Some n -> n = default "" (ProcessName h pid).

(** The state of the loop of [fetchPorts] once the entries [pre] have been
    processed: [seen] holds the keys of the listening entries of [pre], and
    [result] holds one record for each first listener of [pre]. *)
Definition ports_inv (h : host) (pre : list ConnectionStat)
    (st : gmap string bool * list port * gmap Z string) : Prop :=
  let '(seen, result, cache) := st in
  (forall k, default false (seen !! k) = true <->
             exists c, c ∈ pre /\ Status c = "LISTEN" /\ port_key c = k) /\
  cache_ok h cache /\
  exists kept : list (nat * ConnectionStat),
    result = (fun ic => port_record h (snd ic)) <$> kept /\
    NoDup (fst <$> kept) /\
    forall i c, (i, c) ∈ kept <-> first_listener pre i c.

(** *** Sample inputs *)

(** Sample tables to run the code on. *)
Definition sample_connection : connection :=
  {| c_proto := "tcp"; c_local := "127.0.0.1:8080"; c_remote := "*:0";
     c_state := "LISTEN"; c_pid := 412; c_process := "httpd" |}.

Definition sample_data : dataMsg :=
  {| d_connections := [sample_connection]; d_ports := [];
     d_interfaces := [] |}.

(** Sample hosts. *)
Definition listener (family type : Z) (ip : string) (port pid : Z)
    : ConnectionStat :=
  {| Family := family; Type_ := type;
     Laddr := {| IP := ip; Port := port |};
     Raddr := {| IP := ""; Port := 0 |};
     Status := "LISTEN"; Pid := pid |}.

(** A web server listening on port 80 over IPv4 and IPv6, and a resolver
    listening on port 53 over TCP and UDP. *)
Definition web_and_dns : list ConnectionStat :=
  [ listener 2 1 "0.0.0.0" 80 10; listener 10 1 "::" 80 10;
    listener 2 1 "127.0.0.53" 53 7; listener 2 2 "127.0.0.53" 53 7 ].

Definition sample_interfaces : list Interface :=
  [ {| Name := "lo"; Flags := 5; Addrs := Some ["127.0.0.1/8"] |};
    {| Name := "eth0"; Flags := 3; Addrs := Some ["10.0.0.2/24"] |} ].

Definition sample_host : host :=
  {| Connections_for_connections := Some web_and_dns;
     Connections_for_ports := Some web_and_dns;
     Interfaces := Some sample_interfaces;
     IOCounters := [ {| io_Name := "eth0"; BytesSent := 2048;
                        BytesRecv := 1048576 |} ];
     ProcessName := fun pid => if pid =? 10 then Some "nginx" else None |}.

(** The same host when the connection enumeration fails. *)
Definition sample_host_no_connections : host :=
  {| Connections_for_connections := None;
     Connections_for_ports := None;
     Interfaces := Interfaces sample_host;
     IOCounters := IOCounters sample_host;
     ProcessName := ProcessName sample_host |}.

(** *** Vocabulary of the further properties *)

(** The connection record derived from a raw entry. *)
Definition connection_record (h : host) (c : ConnectionStat) : connection :=
  connection_of c (process_of h c).

(** The entries [fetchConnections] keeps: those with a status. *)
Definition has_status (c : ConnectionStat) : Prop := Status c <> "".

#[local] Instance has_status_dec c : Decision (has_status c).
Proof. unfold has_status. apply _. Defined.

(** The counters entry the interface loop finds under a name: the last one
    of the counters slice that carries the name. *)
Definition last_counter (counters : list IOCountersStat) (name : string)
    : option IOCountersStat :=
  last (filter (fun c => io_Name c = name) counters).

(** The address [formatAddr] prints. *)
Definition shown_ip (ip : string) : string :=
  if String.eqb ip "" then "*" else ip.

(** No byte of the string is a colon. *)
Fixpoint no_colon (s : string) : Prop :=
  match s with
  | EmptyString => True
  | String a s' => a <> ":"%char /\ no_colon s'
  end.

(** What every state reached from [newModel] satisfies. *)
Definition nav_inv (m : model) : Prop :=
  model_ints m /\ is_tab (m_tab m) /\ m_offset m = 0 /\
  -1 <= m_cursor m <= Z.max (listLen m - 1) 0.

(** The messages that set the viewport width to something other than 0. *)
Definition sets_width (x : msg) : Prop :=
  match x with WindowSizeMsg w _ => w <> 0 | _ => False end.

(** The two address-family codes [protoString] marks with a 6. *)
Definition is_inet6 (family : Z) : Prop := family = 10 \/ family = 23.

(** *** Vocabulary of the revised properties *)

(** The characters of a text, as the specification counts them for a
    display column: the code points of its UTF-8 encoding. A byte of the
    form [10xxxxxx] continues the character before it. *)
Definition is_continuation (a : ascii) : bool :=
  (128 <=? nat_of_ascii a)%nat && (nat_of_ascii a <? 192)%nat.

Fixpoint char_count (s : string) : nat :=
  match s with
  | EmptyString => 0%nat
  | String a s' =>
      if is_continuation a then char_count s' else S (char_count s')
  end.

(** The first [n] characters of [s]. *)
Fixpoint first_chars (n : nat) (s : string) : string :=
  match s with
  | EmptyString => EmptyString
  | String a s' =>
      if is_continuation a then String a (first_chars n s')
      else match n with
           | O => EmptyString
           | S n' => String a (first_chars n' s')
           end
  end.

(** The comparison handed to [sort.Slice]:
    [result[i].port < result[j].port]. *)
Definition port_less (a b : port) : bool := p_port a <? p_port b.

(** No port is listened on with two socket type codes. *)
Definition one_type_per_port (conns : list ConnectionStat) : Prop :=
  forall c d, c ∈ conns -> d ∈ conns ->
    Status c = "LISTEN" -> Status d = "LISTEN" ->
    Port (Laddr c) = Port (Laddr d) -> Type_ c = Type_ d.

(** A model of 40 connections with the cursor on row 30, in a window of 24
    rows. *)
Definition long_list_model : model :=
  set_cursor 30
    (set_size 80 24
       (set_data {| d_connections := replicate 40 sample_connection;
                    d_ports := []; d_interfaces := [] |} newModel)).

(** The sample host a moment later: the same entries, but the process
    table no longer knows any of the processes. *)
Definition sample_host_processes_gone : host :=
  {| Connections_for_connections := Connections_for_connections sample_host;
     Connections_for_ports := Connections_for_ports sample_host;
     Interfaces := Interfaces sample_host;
     IOCounters := IOCounters sample_host;
     ProcessName := fun _ => None |}.

(** * Properties *)

(** ** Integer and string facts *)

Lemma wrap_id z : is_int z -> wrap z = z.
Proof.
  unfold is_int, int_min, int_max, wrap. intros Hz.
  rewrite Z.mod_small; lia.
Qed.

Lemma wrap_above z :
  int_max < z <= int_max + 2 ^ 64 -> wrap z = z - 2 ^ 64.
Proof.
  unfold int_max, wrap. intros Hz.
  replace (z + 2 ^ 63) with ((z - 2 ^ 64 + 2 ^ 63) + 1 * 2 ^ 64) by lia.
  rewrite Z.mod_add by lia. rewrite Z.mod_small; lia.
Qed.

Lemma wrap_below z :
  int_min - 2 ^ 64 <= z < int_min -> wrap z = z + 2 ^ 64.
Proof.
  unfold int_min, wrap. intros Hz.
  replace (z + 2 ^ 63) with ((z + 2 ^ 64 + 2 ^ 63) + (-1) * 2 ^ 64) by lia.
  rewrite Z.mod_add by lia. rewrite Z.mod_small; lia.
Qed.

(** The sum or difference of two [int]s wraps at most once. *)
Lemma int_add_cases a b :
  is_int a -> is_int b ->
  (is_int (a + b) /\ int_add a b = a + b) \/
  (int_max < a + b /\ int_add a b = a + b - 2 ^ 64) \/
  (a + b < int_min /\ int_add a b = a + b + 2 ^ 64).
Proof.
  unfold int_add. intros Ha Hb.
  destruct (Z_lt_le_dec int_max (a + b)) as [Hhi|Hhi].
  - right; left. split; [done|]. apply wrap_above.
    unfold is_int, int_min, int_max in *. lia.
  - destruct (Z_lt_le_dec (a + b) int_min) as [Hlo|Hlo].
    + right; right. split; [done|]. apply wrap_below.
      unfold is_int, int_min, int_max in *. lia.
    + left. split; [done|]. by apply wrap_id.
Qed.

Lemma int_sub_cases a b :
  is_int a -> is_int b ->
  (is_int (a - b) /\ int_sub a b = a - b) \/
  (int_max < a - b /\ int_sub a b = a - b - 2 ^ 64) \/
  (a - b < int_min /\ int_sub a b = a - b + 2 ^ 64).
Proof.
  unfold int_sub. intros Ha Hb.
  destruct (Z_lt_le_dec int_max (a - b)) as [Hhi|Hhi].
  - right; left. split; [done|]. apply wrap_above.
    unfold is_int, int_min, int_max in *. lia.
  - destruct (Z_lt_le_dec (a - b) int_min) as [Hlo|Hlo].
    + right; right. split; [done|]. apply wrap_below.
      unfold is_int, int_min, int_max in *. lia.
    + left. split; [done|]. by apply wrap_id.
Qed.

Lemma int_add_id a b : is_int (a + b) -> int_add a b = a + b.
Proof. apply wrap_id. Qed.

Lemma int_sub_id a b : is_int (a - b) -> int_sub a b = a - b.
Proof. apply wrap_id. Qed.

(** Turns the bounds of the [int] range into numerals for [lia]. *)
Ltac int_bounds :=
  unfold is_int, is_uint64, int_min, int_max, uint64_max in *;
  change (2 ^ 63) with 9223372036854775808 in *;
  change (2 ^ 64) with 18446744073709551616 in *.

Lemma string_length_app (s t : string) :
  String.length (s +:+ t) = (String.length s + String.length t)%nat.
Proof. induction s as [|a s IH]; simpl; [done|]. by rewrite IH. Qed.

Lemma string_length_substring_0 (n : nat) (s : string) :
  (n <= String.length s)%nat -> String.length (String.substring 0 n s) = n.
Proof.
  revert s. induction n as [|n IH]; intros [|a s] Hn; simpl in *;
    try done; try lia.
  rewrite IH; [done | lia].
Qed.

Lemma len_app (s t : string) : len (s +:+ t) = len s + len t.
Proof. unfold len. rewrite string_length_app. lia. Qed.

Lemma len_first_bytes (n : Z) (s : string) :
  0 <= n <= len s -> len (first_bytes n s) = n.
Proof.
  unfold len, first_bytes. intros Hn.
  rewrite string_length_substring_0; lia.
Qed.

Lemma slice_to_Some (s : string) (n : Z) :
  0 <= n <= len s -> slice_to s n = Some (first_bytes n s).
Proof.
  intros Hn. unfold slice_to.
  destruct (Z.leb_spec 0 n); [|lia]. destruct (Z.leb_spec n (len s)); [|lia].
  done.
Qed.

(** ** C7: truncation *)

(** C7, as the code has it, in bytes. [truncate] returns its input
    unchanged when the input is no longer than the limit; for a limit of at most 3 it returns the first [max]
    bytes of a longer input; otherwise it returns the first [max - 3]
    bytes followed by the three-byte marker ["..."]; and whenever it cuts,
    the output is exactly [max] bytes long. The limit is a Go [int] and,
    where the input is cut, a length, that is not negative: below 0 the
    slice expression [s[:max]] panics. *)
Theorem truncate_spec (s : string) (max : Z) :
  is_int max ->
  (len s <= max -> truncate s max = Some s) /\
  (max < len s -> 0 <= max <= 3 ->
     truncate s max = Some (first_bytes max s)) /\
  (max < len s -> 3 < max ->
     truncate s max = Some (first_bytes (max - 3) s +:+ "...")) /\
  (max < len s -> 0 <= max ->
     exists out, truncate s max = Some out /\ len out = max) /\
  (max < 0 -> truncate s max = None).
Proof.
  intros Hmax. unfold truncate.
  assert (Hcut3 : 3 < max -> int_sub max 3 = max - 3).
  { intros. apply int_sub_id. int_bounds. lia. }
  repeat split.
  - intros Hle. destruct (Z.leb_spec (len s) max); [done | lia].
  - intros Hlt Hsmall. destruct (Z.leb_spec (len s) max); [lia|].
    destruct (Z.leb_spec max 3); [|lia]. apply slice_to_Some. lia.
  - intros Hlt Hbig. destruct (Z.leb_spec (len s) max); [lia|].
    destruct (Z.leb_spec max 3); [lia|].
    rewrite Hcut3 by done. rewrite slice_to_Some by lia. done.
  - intros Hlt Hnn. destruct (Z.leb_spec (len s) max); [lia|].
    destruct (Z.leb_spec max 3).
    + exists (first_bytes max s). split; [apply slice_to_Some; lia|].
      apply len_first_bytes. lia.
    + exists (first_bytes (max - 3) s +:+ "..."). split.
      * rewrite Hcut3 by done. by rewrite slice_to_Some by lia.
      * rewrite len_app, len_first_bytes by lia. change (len "...") with 3.
        lia.
  - intros Hneg. assert (0 <= len s) by (unfold len; lia).
    destruct (Z.leb_spec (len s) max); [lia|].
    destruct (Z.leb_spec max 3); [|lia]. unfold slice_to.
    destruct (Z.leb_spec 0 max); [lia | done].
Qed.

Lemma truncate_spec_witness :
  is_int 8 /\
  truncate "hello world" 8 = Some "hello..." /\
  truncate "hello" 3 = Some "hel" /\
  truncate "hi" 8 = Some "hi".
Proof.
  assert (H8 : is_int 8) by (int_bounds; lia).
  assert (H3 : is_int 3) by (int_bounds; lia).
  split; [exact H8|].
  destruct (truncate_spec "hello world" 8 H8) as (_ & _ & Hcut & _).
  destruct (truncate_spec "hello" 3 H3) as (_ & Hsmall & _).
  destruct (truncate_spec "hi" 8 H8) as (Hid & _).
  split; [|split].
  - rewrite Hcut; [reflexivity | vm_compute; reflexivity | lia].
  - rewrite Hsmall; [reflexivity | vm_compute; reflexivity | lia].
  - apply Hid. vm_compute. discriminate.
Defined.

(** C7 as the specification words it, in characters, fails on text that
    is not ASCII, and for a limit below 0. [truncate] measures and cuts
    bytes: a name of four characters in eight bytes is cut for the limit
    5, although it has no more characters than the limit; a cut can fall
    inside a character, so that what is returned for the limit 1 is half
    of the first character; and a negative limit panics. *)
Lemma truncate_cuts_bytes_not_characters :
  (char_count "éééé" = 4%nat /\ len "éééé" = 8 /\
   truncate "éééé" 5 = Some "é..." /\ truncate "éééé" 5 <> Some "éééé") /\
  (char_count "éa" = 2%nat /\ first_chars 1 "éa" = "é" /\
   truncate "éa" 1 = Some (String (ascii_of_nat 195) "") /\
   truncate "éa" 1 <> Some (first_chars 1 "éa")) /\
  truncate "abc" (-1) = None.
Proof. vm_compute. repeat split; congruence. Qed.

(** ** C8: tab switching *)

Lemma run_nil (m : model) : run m [] = m.
Proof. reflexivity. Qed.

Lemma run_cons (m : model) (x : msg) (xs : list msg) :
  run m (x :: xs) = run (fst (Update m x)) xs.
Proof. reflexivity. Qed.

(** Membership of a literal key in a literal key list. *)
Ltac key_mem :=
  repeat first [ apply list_elem_of_here | apply list_elem_of_further ].

Lemma tab_forward_key_step (m : model) (k : string) :
  k ∈ tab_forward_keys ->
  fst (Update m (KeyMsg k)) =
  set_offset 0 (set_cursor 0 (set_tab (int_rem (int_add (m_tab m) 1) 3) m)).
Proof.
  unfold tab_forward_keys. rewrite !elem_of_cons, elem_of_nil.
  intros [->|[->|[->|[]]]]; reflexivity.
Qed.

Lemma tab_backward_key_step (m : model) (k : string) :
  k ∈ tab_backward_keys ->
  fst (Update m (KeyMsg k)) =
  set_offset 0 (set_cursor 0 (set_tab (int_rem (int_add (m_tab m) 2) 3) m)).
Proof.
  unfold tab_backward_keys. rewrite !elem_of_cons, elem_of_nil.
  intros [->|[->|[->|[]]]]; reflexivity.
Qed.

Lemma tab_select_key_step (m : model) (k : string) :
  k ∈ tab_select_keys ->
  exists t, is_tab t /\
    fst (Update m (KeyMsg k)) = set_offset 0 (set_cursor 0 (set_tab t m)).
Proof.
  unfold tab_select_keys, is_tab. rewrite !elem_of_cons, elem_of_nil.
  intros [->|[->|[->|[]]]]; eexists; (split; [|reflexivity]); auto.
Qed.

(** C8. From each of the three tabs, three tab-forward keys lead back to
    the tab one started from, and so do three tab-backward keys; every
    tab-forward, tab-backward and direct-selection key leaves cursor and
    offset at 0. *)
Theorem tab_switch_cycle_and_reset (m : model) :
  is_tab (m_tab m) ->
  (forall k1 k2 k3,
     k1 ∈ tab_forward_keys -> k2 ∈ tab_forward_keys ->
     k3 ∈ tab_forward_keys ->
     m_tab (run m [KeyMsg k1; KeyMsg k2; KeyMsg k3]) = m_tab m) /\
  (forall k1 k2 k3,
     k1 ∈ tab_backward_keys -> k2 ∈ tab_backward_keys ->
     k3 ∈ tab_backward_keys ->
     m_tab (run m [KeyMsg k1; KeyMsg k2; KeyMsg k3]) = m_tab m) /\
  (forall k,
     k ∈ tab_forward_keys ++ tab_backward_keys ++ tab_select_keys ->
     m_cursor (fst (Update m (KeyMsg k))) = 0 /\
     m_offset (fst (Update m (KeyMsg k))) = 0 /\
     is_tab (m_tab (fst (Update m (KeyMsg k))))).
Proof.
  intros Htab. split; [|split].
  - intros k1 k2 k3 H1 H2 H3. rewrite !run_cons, run_nil.
    rewrite (tab_forward_key_step _ k3 H3), (tab_forward_key_step _ k2 H2),
      (tab_forward_key_step _ k1 H1). simpl.
    destruct Htab as [->|[->| ->]]; reflexivity.
  - intros k1 k2 k3 H1 H2 H3. rewrite !run_cons, run_nil.
    rewrite (tab_backward_key_step _ k3 H3), (tab_backward_key_step _ k2 H2),
      (tab_backward_key_step _ k1 H1). simpl.
    destruct Htab as [->|[->| ->]]; reflexivity.
  - intros k. rewrite !elem_of_app. intros [Hk|[Hk|Hk]].
    + rewrite (tab_forward_key_step _ k Hk). simpl. repeat split.
      unfold is_tab. destruct Htab as [->|[->| ->]]; vm_compute; auto.
    + rewrite (tab_backward_key_step _ k Hk). simpl. repeat split.
      unfold is_tab. destruct Htab as [->|[->| ->]]; vm_compute; auto.
    + destruct (tab_select_key_step m k Hk) as (t & Ht & ->). simpl. auto.
Qed.

Lemma tab_switch_cycle_and_reset_witness :
  is_tab (m_tab newModel) /\
  m_tab (run newModel [KeyMsg "tab"; KeyMsg "l"; KeyMsg "right"]) =
    tabConnections /\
  m_tab (run newModel [KeyMsg "h"; KeyMsg "h"; KeyMsg "left"]) =
    tabConnections /\
  m_cursor (fst (Update newModel (KeyMsg "2"))) = 0.
Proof.
  assert (Ht : is_tab (m_tab newModel)) by (left; reflexivity).
  split; [exact Ht|].
  destruct (tab_switch_cycle_and_reset newModel Ht) as (Hf & Hb & Hr).
  split; [|split].
  - apply Hf; unfold tab_forward_keys; key_mem.
  - apply Hb; unfold tab_backward_keys; key_mem.
  - apply Hr. unfold tab_forward_keys, tab_backward_keys, tab_select_keys.
    simpl. key_mem.
Defined.

(** ** C1: the cursor invariant *)

Lemma slice_len_nonneg {A} (l : list A) : 0 <= slice_len l.
Proof. unfold slice_len. lia. Qed.

Lemma listLen_bounds (m : model) :
  model_ints m -> 0 <= listLen m <= int_max.
Proof.
  intros (_ & _ & _ & _ & Hc & Hp & Hi). unfold listLen.
  pose proof (slice_len_nonneg (m_connections m)).
  pose proof (slice_len_nonneg (m_ports m)).
  pose proof (slice_len_nonneg (m_interfaces m)).
  repeat case_match; int_bounds; lia.
Qed.

Lemma listLen_set_cursor (c : Z) (m : model) :
  listLen (set_cursor c m) = listLen m.
Proof. reflexivity. Qed.

(** [clampCursor] caps the cursor at [max(listLen - 1, 0)] and touches
    nothing else; it has no lower cap. *)
Lemma clampCursor_spec (m : model) :
  0 <= listLen m <= int_max ->
  clampCursor m =
  set_cursor (Z.min (m_cursor m) (Z.max (listLen m - 1) 0)) m.
Proof.
  intros HL. unfold clampCursor.
  rewrite int_sub_id by (int_bounds; lia).
  destruct (Z.ltb_spec (listLen m - 1) 0);
    [ rewrite Z.max_r by lia | rewrite Z.max_l by lia ];
    match goal with |- context [?a <? ?b] => destruct (Z.ltb_spec a b) end;
    try (rewrite Z.min_r by lia; reflexivity);
    rewrite Z.min_l by lia; by destruct m.
Qed.

Lemma key_in_true k ks : key_in k ks = true -> k ∈ ks.
Proof.
  induction ks as [|a ks IH]; simpl; [done|].
  intros [Heq|Hin]%orb_prop.
  - apply String.eqb_eq in Heq as ->. apply list_elem_of_here.
  - apply list_elem_of_further. auto.
Qed.

(** X23. Every transition other than jump-end on an empty active list
    keeps the cursor invariant [0 <= cursor <= max(listLen - 1, 0)]. *)
Lemma cursor_inv_step (m : model) (x : msg) :
  model_ints m -> msg_ints x -> cursor_inv m ->
  ~ (is_jump_end x /\ listLen m = 0) ->
  cursor_inv (fst (Update m x)).
Proof.
  intros Hm Hx Hinv Hnot.
  pose proof (listLen_bounds m Hm) as HL.
  unfold cursor_inv in *.
  destruct x as [k|w h| |d|]; simpl; try done.
  - unfold handleKey.
    destruct (key_in k ["q"; "ctrl+c"]); [done|].
    destruct (key_in k ["tab"; "l"; "right"]); [simpl; lia|].
    destruct (key_in k ["shift+tab"; "h"; "left"]); [simpl; lia|].
    destruct (key_in k ["j"; "down"]).
    { simpl. rewrite clampCursor_spec by done. simpl.
      rewrite !listLen_set_cursor.
      rewrite int_add_id by (int_bounds; lia). lia. }
    destruct (key_in k ["k"; "up"]).
    { simpl. destruct (Z.ltb_spec 0 (m_cursor m)); [|done]. simpl.
      rewrite !listLen_set_cursor.
      rewrite int_sub_id by (int_bounds; lia). lia. }
    destruct (key_in k ["g"; "home"]); [simpl; lia|].
    destruct (key_in k ["G"; "end"]) eqn:HG.
    { simpl. rewrite clampCursor_spec by done. simpl.
      rewrite !listLen_set_cursor.
      rewrite int_sub_id by (int_bounds; lia).
      assert (listLen m <> 0); [|lia].
      intros H0. apply Hnot. split; [|done].
      apply key_in_true in HG. unfold is_jump_end.
      rewrite !elem_of_cons, elem_of_nil in HG.
      destruct HG as [->|[->|[]]]; auto. }
    destruct (key_in k ["1"]); [simpl; lia|].
    destruct (key_in k ["2"]); [simpl; lia|].
    destruct (key_in k ["3"]); [simpl; lia|]. done.
  - assert (Hd : model_ints (set_data d m)).
    { destruct Hm as (?&?&?&?&?&?&?), Hx as (?&?&?).
      unfold model_ints. simpl. tauto. }
    pose proof (listLen_bounds _ Hd).
    rewrite clampCursor_spec by done. simpl.
    rewrite !listLen_set_cursor. lia.
Qed.

(** Jump-end on any empty active list leaves the cursor at -1. *)
Lemma jump_end_on_empty_list (m : model) (k : string) :
  k ∈ ["G"; "end"] -> listLen m = 0 ->
  m_cursor (fst (Update m (KeyMsg k))) = -1.
Proof.
  rewrite !elem_of_cons, elem_of_nil. intros Hk Hlen.
  assert (Hstep : fst (Update m (KeyMsg k)) =
                  clampCursor (set_cursor (int_sub (listLen m) 1) m))
    by (destruct Hk as [->|[->|[]]]; reflexivity).
  rewrite Hstep, clampCursor_spec; rewrite listLen_set_cursor, Hlen;
    [reflexivity | int_bounds; lia].
Qed.

(** C1. Jump-end on an empty active list leaves the cursor at -1: the
    key sets [cursor = listLen - 1 = -1] and [clampCursor], which only caps
    the cursor from above, keeps it. The state is reachable from
    [newModel], and the cursor invariant fails in it. *)
Theorem jump_end_on_empty_list_breaks_cursor_inv :
  let m := run newModel [KeyMsg "G"] in
  reachable m /\ listLen m = 0 /\ m_cursor m = -1 /\ ~ cursor_inv m.
Proof.
  simpl. split; [by exists [KeyMsg "G"]|].
  split; [reflexivity|]. split; [reflexivity|].
  unfold cursor_inv. vm_compute. intros [H _]. by apply H.
Qed.

(** ** C2: scroll-follow *)

(** With a page of at least one row the adjusted offset satisfies the
    scroll-follow invariant, whatever the offset was before and also when
    [offset + pageSize] overflows. *)
Lemma adjustOffset_scroll_follow_inv (m : model) (pageSize : Z) :
  is_int (m_cursor m) -> is_int (m_offset m) -> is_int pageSize ->
  1 <= pageSize ->
  scroll_follow_inv (adjustOffset m pageSize) pageSize.
Proof.
  intros Hc Ho Hp Hpos. unfold scroll_follow_inv, adjustOffset.
  destruct (Z.ltb_spec (m_cursor m) (m_offset m)); [simpl; lia|].
  destruct (int_add_cases (m_offset m) pageSize Ho Hp)
    as [[Hin ->]|[[Hhi ->]|[Hlo ->]]];
    match goal with |- context [?a <=? ?b] => destruct (Z.leb_spec a b) end;
    simpl; try (int_bounds; lia).
  - rewrite (int_sub_id (m_cursor m) pageSize) by (int_bounds; lia).
    rewrite int_add_id by (int_bounds; lia). lia.
  - rewrite (int_sub_id (m_cursor m) pageSize) by (int_bounds; lia).
    rewrite int_add_id by (int_bounds; lia). lia.
Qed.

Lemma content_height_spec (m : model) :
  is_int (m_height m) ->
  1 <= content_height m <= int_max /\
  (int_min + 5 <= m_height m <= 5 -> content_height m = 1) /\
  (6 <= m_height m -> content_height m = m_height m - 5).
Proof.
  intros Hh. unfold content_height.
  assert (H5 : is_int 5) by (int_bounds; lia).
  destruct (int_sub_cases (m_height m) 5 Hh H5)
    as [[Hin ->]|[[Hhi ->]|[Hlo ->]]];
    match goal with |- context [?a <? ?b] => destruct (Z.ltb_spec a b) end;
    int_bounds; lia.
Qed.

Lemma page_size_spec (m : model) :
  is_int (m_height m) ->
  page_size m = content_height m - 1 /\ 0 <= page_size m < int_max.
Proof.
  intros Hh. destruct (content_height_spec m Hh) as (Hc & _).
  unfold page_size. rewrite int_sub_id by (int_bounds; lia).
  int_bounds. lia.
Qed.

(** C2, as the code has it. After [adjustOffset] with a page of at least
    one row, [offset <= cursor < offset + pageSize]. What is floored at 1
    is the content height, the viewport height less the five chrome rows;
    the page size handed to [adjustOffset] is that height less the table's
    own header row. It is never negative, it is 0 for every viewport of at
    most 6 rows, and for a viewport of at least 7 rows it is the height
    less 6 and the invariant holds after the adjustment. *)
Theorem scroll_follow_after_adjustOffset (m : model) :
  is_int (m_cursor m) -> is_int (m_offset m) -> is_int (m_height m) ->
  (forall pageSize, is_int pageSize -> 1 <= pageSize ->
     scroll_follow_inv (adjustOffset m pageSize) pageSize) /\
  1 <= content_height m /\
  page_size m = content_height m - 1 /\
  0 <= page_size m /\
  (0 <= m_height m <= 6 -> page_size m = 0) /\
  (7 <= m_height m ->
     page_size m = m_height m - 6 /\
     scroll_follow_inv (adjustOffset m (page_size m)) (page_size m)).
Proof.
  intros Hc Ho Hh.
  destruct (content_height_spec m Hh) as (Hch & Hlow & Hhigh).
  destruct (page_size_spec m Hh) as (Hps & Hpsr).
  split; [intros pageSize Hp Hpos; by apply adjustOffset_scroll_follow_inv|].
  split; [lia|]. split; [lia|]. split; [lia|]. split.
  - intros Hsmall. rewrite Hps.
    destruct (Z_le_gt_dec (m_height m) 5).
    + rewrite Hlow; [lia | int_bounds; lia].
    + rewrite Hhigh; lia.
  - intros Hbig.
    assert (Hval : page_size m = m_height m - 6) by (rewrite Hps, Hhigh; lia).
    split; [done|].
    apply adjustOffset_scroll_follow_inv; try done.
    + int_bounds; lia.
    + lia.
Qed.

Lemma scroll_follow_after_adjustOffset_witness :
  let m := set_cursor 30 (set_size 80 24 newModel) in
  (is_int (m_cursor m) /\ is_int (m_offset m) /\ is_int (m_height m)) /\
  page_size m = 18 /\
  scroll_follow_inv (adjustOffset m (page_size m)) (page_size m).
Proof.
  set (m := set_cursor 30 (set_size 80 24 newModel)). simpl.
  assert (Hc : is_int (m_cursor m)) by (int_bounds; simpl; lia).
  assert (Ho : is_int (m_offset m)) by (int_bounds; simpl; lia).
  assert (Hh : is_int (m_height m)) by (int_bounds; simpl; lia).
  split; [auto|].
  destruct (scroll_follow_after_adjustOffset m Hc Ho Hh)
    as (_ & _ & _ & _ & _ & Hbig).
  destruct Hbig as [Hps Hinv]; [simpl; lia|].
  split; [exact Hps | exact Hinv].
Defined.

(** C2 as the specification words it fails on a viewport of five rows:
    the viewport height less the five chrome rows is 0, the page size the table view
    uses is 0, not 1, and the adjustment moves the offset to 1, above the
    cursor at 0. *)
Lemma page_size_zero_pushes_offset_above_cursor :
  let m := run newModel [WindowSizeMsg 80 5; DataMsg sample_data] in
  m_height m - 5 <= 0 /\
  page_size m = 0 /\
  m_cursor (adjustOffset m (page_size m)) = 0 /\
  m_offset (adjustOffset m (page_size m)) = 1 /\
  snd <$> viewConnections (LG := plain_lipgloss) (U8 := ascii_utf8)
            m (content_height m) = Some (set_offset 1 m).
Proof. vm_compute. repeat split; congruence. Qed.

(** ** C10: indices touched by the row loops *)

(** The offset stored in the model is only ever written by [handleKey],
    and only with 0: the offsets the table views compute are written to a
    copy. *)
Lemma handleKey_offset (m : model) (k : string) :
  m_offset m = 0 -> m_offset (fst (handleKey m k)) = 0.
Proof.
  intros Ho. unfold handleKey, clampCursor.
  repeat (case_match; simpl; try done).
Qed.

Lemma Update_offset (m : model) (x : msg) :
  m_offset m = 0 -> m_offset (fst (Update m x)) = 0.
Proof.
  intros Ho. destruct x; simpl; try done.
  - by apply handleKey_offset.
  - unfold clampCursor. by repeat case_match.
Qed.

Lemma run_offset (m : model) (xs : list msg) :
  m_offset m = 0 -> m_offset (run m xs) = 0.
Proof.
  revert m. induction xs as [|x xs IH]; intros m Ho; [done|].
  rewrite run_cons. by apply IH, Update_offset.
Qed.

Lemma reachable_offset (m : model) : reachable m -> m_offset m = 0.
Proof. intros [xs ->]. by apply run_offset. Qed.

Lemma elem_of_loop_indices (v : visibleRange) (i : Z) :
  i ∈ loop_indices v <-> start v <= i < end_ v.
Proof.
  unfold loop_indices. rewrite list_elem_of_lookup. split.
  - intros [n Hn]. apply lookup_seqZ in Hn. lia.
  - intros Hi. exists (Z.to_nat (i - start v)). apply lookup_seqZ. lia.
Qed.

(** While the cursor is not negative, the row loop of a table view only
    touches indices of its list: the range starts at an offset that is not
    negative and ends at [min(offset + pageSize, len)]. *)
Lemma loop_indices_in_range (m : model) (total : Z) :
  is_int (m_height m) -> m_offset m = 0 -> 0 <= m_cursor m < int_max ->
  let m' := adjustOffset m (page_size m) in
  forall i, i ∈ loop_indices (visibleRange_of m' total (page_size m)) ->
            0 <= i < total.
Proof.
  intros Hh Ho Hc m' i. rewrite elem_of_loop_indices.
  destruct (page_size_spec m Hh) as (_ & Hps).
  unfold m', visibleRange_of, adjustOffset, int_min2. rewrite Ho. simpl.
  destruct (Z.ltb_spec (m_cursor m) 0); [exfalso; lia|].
  rewrite (int_add_id 0) by (int_bounds; lia). rewrite Z.add_0_l.
  destruct (Z.leb_spec (page_size m) (m_cursor m)); simpl.
  - rewrite (int_sub_id (m_cursor m)) by (int_bounds; lia).
    rewrite (int_add_id _ 1) by (int_bounds; lia).
    rewrite int_add_id by (int_bounds; lia).
    case_match; lia.
  - rewrite Ho. rewrite (int_add_id 0) by (int_bounds; lia).
    case_match; lia.
Qed.

(** C10. After jump-end on an empty list in a window of 24 rows, a state
    reachable from [newModel], the row loop of the Connections view starts
    at index -1: the cursor is -1, [adjustOffset] moves the offset to the
    cursor, and the visible range is [-1, 0). Indexing the empty list at -1
    panics, so [View] produces no frame, whatever the styling and the clock. *)
Theorem jump_end_on_empty_list_indexes_out_of_range :
  let m := run newModel [WindowSizeMsg 80 24; KeyMsg "G"] in
  let m' := adjustOffset m (page_size m) in
  reachable m /\
  loop_indices
    (visibleRange_of m' (slice_len (m_connections m')) (page_size m)) = [-1] /\
  index (m_connections m') (-1) = None /\
  forall (LG : Lipgloss) (U8 : Utf8) (now : Time), View now m = None.
Proof.
  simpl. split; [by exists [WindowSizeMsg 80 24; KeyMsg "G"]|].
  split; [reflexivity|]. split; [reflexivity|].
  intros LG U8 now. reflexivity.
Qed.

(** ** C4: rendering *)

Section RendererFacts.
Context {LG : Lipgloss} {U8 : Utf8}.

(** A table view writes nothing but the offset of its receiver. *)
Lemma viewActive_writes_offset_only (m m' : model) (s : string) :
  viewActive m = Some (Some (s, m')) -> m' = adjustOffset m (page_size m).
Proof.
  unfold viewActive, viewConnections, viewPorts, viewInterfaces, page_size.
  intros Hv.
  repeat case_match; simplify_option_eq; done.
Qed.

End RendererFacts.

(** C4 as the specification words it fails: the header shows the wall
    clock, which [viewHeader] reads by itself, so two renders of one state differ when
    the clock has moved on. *)
Lemma View_differs_with_the_clock :
  let m := run newModel [WindowSizeMsg 80 24] in
  View (LG := plain_lipgloss) (U8 := ascii_utf8)
       {| Hour := 9; Minute := 5; Second := 12 |} m <>
  View (LG := plain_lipgloss) (U8 := ascii_utf8)
       {| Hour := 9; Minute := 5; Second := 13 |} m.
Proof. vm_compute. discriminate. Qed.

(** ** C9: byte scaling *)

Lemma string_app_assoc (s t u : string) : (s +:+ t) +:+ u = s +:+ (t +:+ u).
Proof.
  induction s as [|a s IH]; [done|].
  change (String a ((s +:+ t) +:+ u) = String a (s +:+ t +:+ u)).
  by rewrite IH.
Qed.

Lemma round_half_even_nearest (n d : Z) :
  0 < d -> 2 * Z.abs (n - round_half_even n d * d) <= d.
Proof.
  intros Hd. unfold round_half_even.
  pose proof (Z.div_mod n d ltac:(lia)) as Hdm.
  pose proof (Z.mod_pos_bound n d Hd) as Hr.
  repeat match goal with
         | |- context [?a <? ?b] => destruct (Z.ltb_spec a b)
         end; try destruct (Z.even _); nia.
Qed.

Lemma pow_1024_pos (k : Z) : 0 <= k -> 0 < 1024 ^ k.
Proof. intros. apply Z.pow_pos_nonneg; lia. Qed.

Lemma pow_1024_succ (k : Z) : 0 <= k -> 1024 ^ (k + 1) = 1024 ^ k * 1024.
Proof. intros. rewrite Z.pow_add_r by lia. lia. Qed.

(** No power of 1024 from the seventh on fits a [uint64]. *)
Lemma pow_1024_uint64 (k b : Z) :
  0 <= k -> 1024 ^ k <= b -> b <= uint64_max -> k <= 6.
Proof.
  intros Hk Hle Hb. destruct (Z_le_gt_dec k 6) as [|Hgt]; [done|].
  exfalso.
  assert (1024 ^ 7 <= 1024 ^ k) by (apply Z.pow_le_mono_r; lia).
  int_bounds. change (1024 ^ 7) with 1180591620717411303424 in *. lia.
Qed.

(** The scaling loop, started with [n = b / 1024^(exp+1)] and
    [div = 1024^(exp+1)], stops by its own test once the fuel exceeds
    [log2 n], with [div] the largest power of 1024 not above [b]. *)
Lemma scale_loop_spec (fuel : nat) (b n exp : Z) :
  b <= uint64_max -> 0 <= exp -> 1 <= n ->
  n = b / 1024 ^ (exp + 1) ->
  (Z.to_nat (Z.log2 n) < fuel)%nat ->
  exists exp',
    scale_loop fuel n (1024 ^ (exp + 1)) exp =
      (b / 1024 ^ (exp' + 1), 1024 ^ (exp' + 1), exp') /\
    exp <= exp' <= 5 /\
    1024 ^ (exp' + 1) <= b < 1024 ^ (exp' + 2).
Proof.
  revert n exp. induction fuel as [|fuel IH]; intros n exp Hb Hexp Hn Hdiv Hfuel;
    [lia|].
  pose proof (pow_1024_pos (exp + 1) ltac:(lia)) as Hpos.
  assert (Hlow : 1024 ^ (exp + 1) * n <= b).
  { subst n. apply Z.mul_div_le. lia. }
  assert (Hup : b < 1024 ^ (exp + 1) * (n + 1)).
  { subst n. pose proof (Z.mul_succ_div_gt b (1024 ^ (exp + 1)) Hpos). lia. }
  assert (Hexp5 : exp + 1 <= 6).
  { apply (pow_1024_uint64 _ b); [lia| nia |done]. }
  simpl. unfold unit. destruct (Z.leb_spec 1024 n) as [Hge|Hlt].
  - assert (Hmul : 1024 ^ (exp + 1) * 1024 = 1024 ^ (exp + 1 + 1)).
    { by rewrite (pow_1024_succ (exp + 1)) by lia. }
    assert (Hexp4 : exp + 1 + 1 <= 6).
    { apply (pow_1024_uint64 _ b); [lia| nia |done]. }
    unfold wrap_u64. rewrite Z.mod_small by (int_bounds; nia).
    rewrite int_add_id by (int_bounds; lia). rewrite Hmul.
    destruct (IH (n / 1024) (exp + 1)) as (exp' & Heq & Hrange & Hb');
      try done; try lia.
    + apply Z.div_le_lower_bound; lia.
    + subst n. rewrite Z.div_div by lia. by rewrite <- Hmul.
    + pose proof (Z.log2_nonneg (n / 1024)).
      assert (Z.log2 (n / 1024) < Z.log2 n); [|lia].
      change 1024 with (2 ^ 10). rewrite <- Z.shiftr_div_pow2 by lia.
      rewrite Z.log2_shiftr by lia.
      assert (10 <= Z.log2 n) by (apply Z.log2_le_pow2; lia). lia.
    + exists exp'. split; [done|]. split; [lia|done].
  - exists exp. subst n. split; [done|]. split; [lia|].
    replace (exp + 2) with (exp + 1 + 1) by lia.
    rewrite (pow_1024_succ (exp + 1)) by lia. nia.
Qed.

Lemma scale_fuel_enough (n : Z) : (Z.to_nat (Z.log2 n) < scale_fuel n)%nat.
Proof. unfold scale_fuel. lia. Qed.

Lemma unit_prefix_Some (exp : Z) :
  0 <= exp <= 5 -> exists c, unit_prefix exp = Some c.
Proof.
  intros Hexp.
  assert (exp = 0 \/ exp = 1 \/ exp = 2 \/ exp = 3 \/ exp = 4 \/ exp = 5)
    as [->|[->|[->|[->|[->| ->]]]]] by lia; eexists; reflexivity.
Qed.

Lemma fmt_d_digit (z : Z) : 0 <= z <= 9 -> len (fmt_d z) = 1.
Proof.
  intros Hz.
  assert (z = 0 \/ z = 1 \/ z = 2 \/ z = 3 \/ z = 4 \/ z = 5 \/ z = 6 \/
          z = 7 \/ z = 8 \/ z = 9)
    as [->|[->|[->|[->|[->|[->|[->|[->|[->| ->]]]]]]]]] by lia; reflexivity.
Qed.

Lemma float64_of_uint64_nearest (b : Z) :
  2 ^ 53 <= b <= uint64_max ->
  let e := Z.log2 b - 52 in
  1 <= e <= 11 /\
  float64_of_uint64 b mod 2 ^ e = 0 /\
  2 * Z.abs (float64_of_uint64 b - b) <= 2 ^ e.
Proof.
  intros Hb e.
  assert (He : 1 <= e <= 11).
  { unfold e. assert (53 <= Z.log2 b) by (apply Z.log2_le_pow2; lia).
    assert (Z.log2 b < 64); [|lia]. apply Z.log2_lt_pow2; int_bounds; lia. }
  split; [done|].
  unfold float64_of_uint64. destruct (Z.ltb_spec b (2 ^ 53)); [lia|].
  fold e. rewrite Z.shiftr_div_pow2, Z.land_ones, !Z.shiftl_mul_pow2 by lia.
  rewrite Z.mul_1_l.
  assert (Hpow : 2 ^ e = 2 * 2 ^ (e - 1)).
  { rewrite <- Z.pow_succ_r by lia. f_equal. lia. }
  assert (Hp : 0 < 2 ^ (e - 1)) by (apply Z.pow_pos_nonneg; lia).
  pose proof (Z.div_mod b (2 ^ e) ltac:(lia)) as Hdm.
  pose proof (Z.mod_pos_bound b (2 ^ e) ltac:(lia)) as Hr.
  set (q := b / 2 ^ e) in *. set (r := b mod 2 ^ e) in *.
  split; [apply Z.mod_mul; lia|].
  destruct (Z.ltb_spec (2 ^ (e - 1)) r); simpl; [nia|].
  destruct (Z.eqb_spec r (2 ^ (e - 1))); simpl; [|nia].
  destruct (Z.odd q); nia.
Qed.

(** C9. [formatBytes] prints 1023 as ["1023 B"], 1024 as ["1.0 KB"] and
    1048576 as ["1.0 MB"]. A value below 1024 is printed as the integer it
    is, with unit [B]. Any other [uint64] is printed with the largest power
    of 1024 not above it as divisor, the matching letter of ["KMGTPE"], and
    one digit after the point: the printed number is the quotient (of the
    value as a [float64], which is the value itself below [2^53] and the
    nearest 53-bit number from there on) rounded to the nearest tenth. *)
Theorem formatBytes_spec :
  formatBytes 1023 = Some "1023 B" /\
  formatBytes 1024 = Some "1.0 KB" /\
  formatBytes 1048576 = Some "1.0 MB" /\
  (forall b, 0 <= b < 1024 -> formatBytes b = Some (fmt_d b +:+ " B")) /\
  (forall b, 1024 <= b <= uint64_max ->
     exists exp c tenths,
       0 <= exp <= 5 /\
       1024 ^ (exp + 1) <= b < 1024 ^ (exp + 2) /\
       unit_prefix exp = Some c /\
       formatBytes b =
         Some (fmt_d (tenths / 10) +:+ "." +:+ fmt_d (tenths mod 10) +:+
               " " +:+ String c "B") /\
       len (fmt_d (tenths mod 10)) = 1 /\
       2 * Z.abs (10 * float64_of_uint64 b - tenths * 1024 ^ (exp + 1))
         <= 1024 ^ (exp + 1) /\
       (b < 2 ^ 53 -> float64_of_uint64 b = b) /\
       (2 ^ 53 <= b ->
          2 * Z.abs (float64_of_uint64 b - b) <= 2 ^ (Z.log2 b - 52))).
Proof.
  split; [reflexivity|]. split; [reflexivity|]. split; [reflexivity|].
  split.
  - intros b Hb. unfold formatBytes, unit.
    destruct (Z.ltb_spec b 1024); [done | lia].
  - intros b Hb. unfold formatBytes. unfold unit at 1.
    destruct (Z.ltb_spec b 1024); [lia|].
    destruct (scale_loop_spec (scale_fuel (b / unit)) b (b / unit) 0)
      as (exp & Hloop & Hexp & Hrange);
      try done; try lia; unfold unit.
    + apply Z.div_le_lower_bound; lia.
    + apply scale_fuel_enough.
    + destruct (unit_prefix_Some exp ltac:(lia)) as [c Hc].
      set (tenths := round_half_even (10 * float64_of_uint64 b)
                                     (1024 ^ (exp + 1))).
      exists exp, c, tenths.
      pose proof (pow_1024_pos (exp + 1) ltac:(lia)) as Hpos.
      split; [lia|]. split; [done|]. split; [done|]. split.
      { unfold unit in Hloop. change (1024 ^ (0 + 1)) with 1024 in Hloop.
        rewrite Hloop, Hc. simpl. unfold fmt_f1. fold tenths.
        by rewrite !string_app_assoc. }
      split.
      { apply fmt_d_digit.
        pose proof (Z.mod_pos_bound tenths 10 ltac:(lia)). lia. }
      split; [by apply round_half_even_nearest|]. split.
      { intros Hsmall. unfold float64_of_uint64.
        destruct (Z.ltb_spec b (2 ^ 53)); [done | lia]. }
      intros Hbig.
      by destruct (float64_of_uint64_nearest b ltac:(lia)) as (_ & _ & Hnear).
Qed.

(** ** The key of [fetchPorts] *)

Lemma no_dash_pretty_N_go (x : N) (s : string) :
  no_dash s -> no_dash (pretty_N_go x s).
Proof.
  revert s. induction (N.lt_wf_0 x) as [x _ IH]; intros s Hs.
  destruct (decide (x = 0)%N) as [->|Hx]; [by rewrite pretty_N_go_0|].
  rewrite pretty_N_go_step by lia. apply IH.
  - apply N.div_lt; lia.
  - split; [|done]. unfold pretty_N_char. repeat case_match; discriminate.
Qed.

Lemma no_dash_fmt_d (z : Z) : 0 <= z -> no_dash (fmt_d z).
Proof.
  intros Hz. unfold fmt_d, pretty, pretty_Z.
  destruct z as [|p|p]; [by repeat split| |lia].
  unfold pretty, pretty_positive, pretty, pretty_N.
  case_decide; [by repeat split|]. by apply no_dash_pretty_N_go.
Qed.

(** Two dash-free strings followed by a dash split a text in one way. *)
Lemma dash_split_unique (a a' b b' : string) :
  no_dash a -> no_dash a' ->
  a +:+ "-" +:+ b = a' +:+ "-" +:+ b' -> a = a' /\ b = b'.
Proof.
  revert a'. induction a as [|x a IH]; intros [|x' a'] Ha Ha' Heq;
    simpl in *.
  - by injection Heq.
  - injection Heq as Hx _. destruct Ha' as [Hne _]. by rewrite Hx in Hne.
  - injection Heq as Hx _. destruct Ha as [Hne _]. by rewrite <- Hx in Hne.
  - injection Heq as -> Hrest.
    destruct (IH a') as [-> ->]; tauto.
Qed.

(** Two entries have the same key exactly when they have the same port
    and the same type code. *)
Lemma port_key_inj (c d : ConnectionStat) :
  uint32_fields c -> uint32_fields d ->
  port_key c = port_key d <-> port_type c = port_type d.
Proof.
  intros [Hcp Hct] [Hdp Hdt]. unfold port_key, port_type. split.
  - intros Heq. apply dash_split_unique in Heq as [Hp Ht];
      [|apply no_dash_fmt_d; lia..].
    apply (inj pretty) in Hp. apply (inj pretty) in Ht. congruence.
  - intros [= -> ->]. done.
Qed.

(** ** The loop of [fetchPorts] *)

Section FetchPortsLoop.
Context (h : host).

Lemma cache_ok_empty : cache_ok h ∅.
Proof. intros pid n Hl. by rewrite lookup_empty in Hl. Qed.

Lemma getProcessName_spec (pid : Z) (cache : gmap Z string) :
  cache_ok h cache ->
  fst (getProcessName h pid cache) = default "" (ProcessName h pid) /\
  cache_ok h (snd (getProcessName h pid cache)).
Proof.
  intros Hok. unfold getProcessName.
  destruct (cache !! pid) as [name|] eqn:Hl; simpl.
  - split; [by apply Hok | done].
  - split; [done|]. intros pid' n.
    destruct (decide (pid = pid')) as [->|Hne].
    + rewrite lookup_insert_eq. by intros [= <-].
    + rewrite lookup_insert_ne by done. apply Hok.
Qed.

(** The name either loop attaches to an entry is [process_of], whatever
    the cache holds. *)
Lemma process_lookup_spec (c : ConnectionStat) (cache : gmap Z string) :
  cache_ok h cache ->
  let r := if 0 <? Pid c then getProcessName h (Pid c) cache
           else ("", cache) in
  fst r = process_of h c /\ cache_ok h (snd r).
Proof.
  intros Hok. unfold process_of. destruct (0 <? Pid c); simpl; [|done].
  by apply getProcessName_spec.
Qed.

Lemma first_listener_lt (pre : list ConnectionStat) i c :
  first_listener pre i c -> (i < length pre)%nat.
Proof. intros (Hl & _). by apply lookup_lt_Some in Hl. Qed.

Lemma first_listener_snoc (pre : list ConnectionStat) x i c :
  first_listener (pre ++ [x]) i c <->
  first_listener pre i c \/
  (i = length pre /\ c = x /\ Status x = "LISTEN" /\
   forall d, d ∈ pre -> Status d = "LISTEN" -> port_type d <> port_type x).
Proof.
  unfold first_listener. split.
  - intros (Hl & Hs & Hfirst).
    destruct (decide (i < length pre)%nat) as [Hlt|Hge].
    + left. rewrite lookup_app_l in Hl by done. split; [done|].
      split; [done|]. intros j d Hj Hd. apply (Hfirst j); [done|].
      rewrite lookup_app_l by lia. done.
    + right. rewrite lookup_app_r in Hl by lia.
      destruct (i - length pre)%nat as [|n] eqn:Hn; simpl in Hl; [|done].
      injection Hl as <-. pose proof (lookup_lt_Some _ _ _ (eq_refl : [x] !! 0%nat = Some x)).
      split; [lia|]. split; [done|]. split; [done|].
      intros d [j Hd]%list_elem_of_lookup Hsd.
      apply (Hfirst j); [|by rewrite lookup_app_l by (by eapply lookup_lt_Some)|done].
      apply lookup_lt_Some in Hd. lia.
  - intros [(Hl & Hs & Hfirst)|(-> & -> & Hs & Hfirst)].
    + pose proof (lookup_lt_Some _ _ _ Hl). split; [by rewrite lookup_app_l|].
      split; [done|]. intros j d Hj Hd. apply (Hfirst j); [done|].
      by rewrite lookup_app_l in Hd by lia.
    + split; [by rewrite lookup_app_r, Nat.sub_diag by lia|].
      split; [done|]. intros j d Hj Hd. apply Hfirst.
      rewrite lookup_app_l in Hd by done. apply list_elem_of_lookup. eauto.
Qed.

Lemma fetchPorts_step_inv (pre : list ConnectionStat) st (x : ConnectionStat) :
  Forall uint32_fields (pre ++ [x]) ->
  ports_inv h pre st -> ports_inv h (pre ++ [x]) (fetchPorts_step h st x).
Proof.
  intros Hwf. destruct st as [[seen result] cache].
  intros (Hseen & Hcache & kept & Hres & Hnd & Hkept).
  apply Forall_app in Hwf as [Hwfpre Hwfx].
  rewrite Forall_singleton in Hwfx.
  unfold fetchPorts_step.
  destruct (String.eqb_spec (Status x) "LISTEN") as [Hlisten|Hno]; simpl.
  2:{ (* not listening: the state is left as it is *)
    split; [|split; [done|]].
    - intros k. rewrite Hseen. setoid_rewrite elem_of_app.
      setoid_rewrite list_elem_of_singleton. split.
      + intros (c & Hc & Hs & Hk). eauto.
      + intros (c & [Hc| ->] & Hs & Hk); [eauto | done].
    - exists kept. split; [done|]. split; [done|].
      intros i c. rewrite Hkept, first_listener_snoc. split; [auto|].
      intros [Hf|(_ & _ & Hs & _)]; [done | by destruct Hno]. }
  destruct (default false (seen !! port_key x)) eqn:Hseenx.
  - (* listening, key already seen *)
    apply Hseen in Hseenx as (c0 & Hc0 & Hs0 & Hk0).
    split; [|split; [done|]].
    + intros k. rewrite Hseen. setoid_rewrite elem_of_app.
      setoid_rewrite list_elem_of_singleton. split.
      * intros (c & Hc & Hs & Hk). eauto.
      * intros (c & [Hc| ->] & Hs & Hk); [eauto|].
        exists c0. split; [done|]. split; [done|]. congruence.
    + exists kept. split; [done|]. split; [done|].
      intros i c. rewrite Hkept, first_listener_snoc. split; [auto|].
      intros [Hf|(_ & _ & _ & Hfirst)]; [done|].
      rewrite Forall_forall in Hwfpre.
      destruct (Hfirst c0 Hc0 Hs0).
      apply (port_key_inj c0 x); [by apply Hwfpre | done | done].
  - (* listening, key new: one record is appended *)
    pose proof (process_lookup_spec x cache Hcache) as Hproc. simpl in Hproc.
    destruct (if 0 <? Pid x then getProcessName h (Pid x) cache
              else ("", cache)) as [process cache'].
    destruct Hproc as [Hp Hc']. simpl in Hp, Hc'. subst process.
    assert (Hfresh : forall d, d ∈ pre -> Status d = "LISTEN" ->
                               port_type d <> port_type x).
    { intros d Hd Hsd Heq.
      assert (default false (seen !! port_key x) = true); [|congruence].
      apply Hseen. exists d. split; [done|]. split; [done|].
      rewrite Forall_forall in Hwfpre.
      apply (port_key_inj d x); [by apply Hwfpre | done | done]. }
    split; [|split; [done|]].
    + intros k. setoid_rewrite elem_of_app.
      setoid_rewrite list_elem_of_singleton.
      destruct (decide (port_key x = k)) as [<-|Hne].
      * rewrite lookup_insert_eq. simpl. split; [|done]. eauto.
      * rewrite lookup_insert_ne by done. rewrite Hseen. split.
        -- intros (c & Hc & Hs & Hk). eauto.
        -- intros (c & [Hc| ->] & Hs & Hk); [eauto | done].
    + exists (kept ++ [(length pre, x)]). split; [|split].
      * rewrite fmap_app. by rewrite Hres.
      * rewrite fmap_app. apply NoDup_app. split; [done|]. split.
        -- intros i [[i' c] [-> Hic]]%list_elem_of_fmap. simpl.
           apply Hkept, first_listener_lt in Hic.
           rewrite list_elem_of_singleton. lia.
        -- apply NoDup_singleton.
      * intros i c. rewrite elem_of_app, list_elem_of_singleton.
        rewrite Hkept, first_listener_snoc. split.
        -- intros [Hf|[= -> ->]]; [auto|]. right. auto.
        -- intros [Hf|(-> & -> & _)]; auto.
Qed.

Lemma fetchPorts_fold_inv (conns pre : list ConnectionStat) st :
  Forall uint32_fields (pre ++ conns) ->
  ports_inv h pre st ->
  ports_inv h (pre ++ conns) (fold_left (fetchPorts_step h) conns st).
Proof.
  revert pre st. induction conns as [|x conns IH]; intros pre st Hwf Hinv.
  - by rewrite app_nil_r.
  - simpl. rewrite cons_middle, app_assoc. apply IH.
    + by rewrite <- app_assoc.
    + apply fetchPorts_step_inv; [|done].
      rewrite cons_middle, app_assoc in Hwf. by apply Forall_app in Hwf as [? _].
Qed.

Lemma ports_inv_init : ports_inv h [] (∅, [], ∅).
Proof.
  split; [|split; [apply cache_ok_empty|]].
  - intros k. rewrite lookup_empty. simpl. split; [done|].
    intros (c & Hc & _). by apply elem_of_nil in Hc.
  - exists []. split; [done|]. split; [constructor|].
    intros i c. split; [by intros ?%elem_of_nil|].
    intros (Hl & _). by rewrite lookup_nil in Hl.
Qed.

(** The unsorted result of [fetchPorts]: one record for each first
    listener, and no other. *)
Lemma fetchPorts_loop_spec (conns : list ConnectionStat) :
  Forall uint32_fields conns ->
  exists kept : list (nat * ConnectionStat),
    fetchPorts_loop h conns = (fun ic => port_record h (snd ic)) <$> kept /\
    NoDup (fst <$> kept) /\
    forall i c, (i, c) ∈ kept <-> first_listener conns i c.
Proof.
  intros Hwf. unfold fetchPorts_loop.
  pose proof (fetchPorts_fold_inv conns [] (∅, [], ∅) Hwf ports_inv_init)
    as Hinv. simpl in Hinv.
  destruct (fold_left _ _ _) as [[seen result] cache].
  destruct Hinv as (_ & _ & Hkept). exact Hkept.
Qed.

End FetchPortsLoop.

(** ** C3 and C6: the derived port list *)

Lemma first_listener_unique (conns : list ConnectionStat) i c j d :
  first_listener conns i c -> first_listener conns j d ->
  port_type c = port_type d -> i = j /\ c = d.
Proof.
  intros (Hi & Hsi & Hfi) (Hj & Hsj & Hfj) Heq.
  assert (i = j) as ->.
  { destruct (Nat.lt_trichotomy i j) as [Hlt|[->|Hlt]]; [|done|].
    - by destruct (Hfj i c Hlt Hi Hsi).
    - by destruct (Hfi j d Hlt Hj Hsj). }
  split; [done | congruence].
Qed.

Lemma first_listener_exists (conns : list ConnectionStat) i c :
  conns !! i = Some c -> Status c = "LISTEN" ->
  exists j d, first_listener conns j d /\ port_type d = port_type c.
Proof.
  revert c. induction (lt_wf i) as [i _ IH]. intros c Hi Hs.
  destruct (decide (Exists (fun d => Status d = "LISTEN" /\
                                     port_type d = port_type c)
                           (take i conns))) as [Hex|Hno].
  - apply Exists_exists in Hex as (d & Hd & Hsd & Heq).
    apply list_elem_of_lookup in Hd as [j Hj].
    apply lookup_take_Some in Hj as [Hj Hlt].
    destruct (IH j Hlt d Hj Hsd) as (j' & d' & Hf & Heq').
    exists j', d'. split; [done | congruence].
  - exists i, c. split; [|done]. split; [done|]. split; [done|].
    intros j d Hlt Hj Hsd Heq. apply Hno, Exists_exists.
    exists d. split; [|done]. apply list_elem_of_lookup. exists j.
    by apply lookup_take_Some.
Qed.

(** A strictly ascending list has no port number twice. *)
Lemma StronglySorted_port_lt_NoDup (l : list port) :
  StronglySorted port_lt l -> NoDup (p_port <$> l).
Proof.
  induction 1 as [|p l Hs IH Hall]; simpl; [constructor|].
  apply NoDup_cons. split; [|done].
  intros [q [Heq Hq]]%list_elem_of_fmap.
  rewrite Forall_forall in Hall. specialize (Hall q Hq).
  unfold port_lt in Hall. lia.
Qed.

Section Ports.
Context {S : SortSlice} (h : host).

Lemma fetchPorts_kept (conns : list ConnectionStat) :
  Connections_for_ports h = Some conns ->
  Forall uint32_fields conns ->
  exists kept : list (nat * ConnectionStat),
    fetchPorts h ≡ₚ (fun ic => port_record h (snd ic)) <$> kept /\
    NoDup (fst <$> kept) /\
    forall i c, (i, c) ∈ kept <-> first_listener conns i c.
Proof.
  intros Hcall Hwf. unfold fetchPorts. rewrite Hcall.
  destruct (fetchPorts_loop_spec h conns Hwf) as (kept & Hres & Hnd & Hkept).
  exists kept. split; [|done]. rewrite <- Hres. apply sort_Slice_Permutation.
Qed.

Lemma fetchPorts_sorted : StronglySorted port_le (fetchPorts h).
Proof.
  unfold fetchPorts. destruct (Connections_for_ports h).
  - apply sort_Slice_Sorted.
  - constructor.
Qed.

End Ports.

(** C3 as the specification words it fails for a server listening on
    port 80 over IPv4 and IPv6: the two entries carry the labels ["tcp"] and ["tcp6"], yet
    they share the port and the type code 1, so only the first yields a
    record. *)
Lemma tcp_and_tcp6_listeners_collapse :
  let h := sample_host in
  protoString 1 2 = "tcp" /\ protoString 1 10 = "tcp6" /\
  filter (fun p => p_port p = 80) (fetchPorts (H := merge_SortSlice) h) =
  [ {| p_port := 80; p_proto := "tcp"; p_addr := "0.0.0.0"; p_pid := 10;
       p_process := "nginx" |} ] /\
  forall S : SortSlice,
    length (filter (fun p => p_port p = 80) (fetchPorts (H := S) h)) = 1%nat.
Proof.
  simpl. split; [reflexivity|]. split; [reflexivity|].
  split; [by vm_compute|]. intros S.
  unfold fetchPorts. simpl. rewrite sort_Slice_Permutation. by vm_compute.
Qed.

(** C3, as the code has it. Among the listening entries of the connection
    enumeration, [fetchPorts] keeps exactly the first one for each distinct
    pair of port number and socket type code: its result holds, in some
    order, one record for each such first entry and nothing else. So every
    listening entry has its port and type code represented by a kept
    entry, whatever its bind address or address family, and no two kept
    entries share port and type code; entries of the same port with
    different type codes (tcp and udp) each keep their record. *)
Theorem fetchPorts_keeps_first_listener_per_port_and_type
    (S : SortSlice) (h : host) (conns : list ConnectionStat) :
  Connections_for_ports h = Some conns ->
  Forall uint32_fields conns ->
  exists kept : list (nat * ConnectionStat),
    fetchPorts h ≡ₚ (fun ic => port_record h (snd ic)) <$> kept /\
    NoDup (fst <$> kept) /\
    (forall i c, (i, c) ∈ kept <-> first_listener conns i c) /\
    (forall c, c ∈ conns -> Status c = "LISTEN" ->
       exists i d, (i, d) ∈ kept /\ port_type d = port_type c) /\
    (forall i c j d, (i, c) ∈ kept -> (j, d) ∈ kept ->
       port_type c = port_type d -> i = j /\ c = d).
Proof.
  intros Hcall Hwf.
  destruct (fetchPorts_kept h conns Hcall Hwf) as (kept & Hperm & Hnd & Hkept).
  exists kept. split; [done|]. split; [done|]. split; [done|]. split.
  - intros c [i Hi]%list_elem_of_lookup Hs.
    destruct (first_listener_exists conns i c Hi Hs) as (j & d & Hf & Heq).
    exists j, d. split; [by apply Hkept | done].
  - intros i c j d Hic Hjd. apply first_listener_unique with conns;
      by apply Hkept.
Qed.

(** Membership of a literal entry in a literal list, and the range of
    literal [uint32] fields. *)
Ltac uint32_literals :=
  repeat (apply Forall_cons; split;
          [unfold uint32_fields; simpl; lia|]);
  apply Forall_nil; exact I.

Lemma fetchPorts_keeps_first_listener_per_port_and_type_witness :
  Connections_for_ports sample_host = Some web_and_dns /\
  Forall uint32_fields web_and_dns /\
  exists kept : list (nat * ConnectionStat),
    fetchPorts (H := merge_SortSlice) sample_host
      ≡ₚ (fun ic => port_record sample_host (snd ic)) <$> kept /\
    forall i c, (i, c) ∈ kept <-> first_listener web_and_dns i c.
Proof.
  assert (Hcall : Connections_for_ports sample_host = Some web_and_dns)
    by reflexivity.
  assert (Hwf : Forall uint32_fields web_and_dns).
  { unfold web_and_dns. uint32_literals. }
  split; [exact Hcall|]. split; [exact Hwf|].
  destruct (fetchPorts_keeps_first_listener_per_port_and_type
              merge_SortSlice sample_host web_and_dns Hcall Hwf)
    as (kept & Hperm & _ & Hkept & _).
  exists kept. split; [exact Hperm | exact Hkept].
Defined.

(** ** C6 on the listening entries *)

Lemma NoDup_fmap_elem_inj {A B} (f : A -> B) (l : list A) (x y : A) :
  NoDup (f <$> l) -> x ∈ l -> y ∈ l -> f x = f y -> x = y.
Proof.
  induction l as [|a l IH]; simpl; [by intros _ ?%elem_of_nil|].
  rewrite NoDup_cons, !elem_of_cons. intros [Hnotin Hnd] [->|Hx] [->|Hy] Heq.
  - done.
  - destruct Hnotin. rewrite Heq. by apply list_elem_of_fmap_2.
  - destruct Hnotin. rewrite <- Heq. by apply list_elem_of_fmap_2.
  - by apply IH.
Qed.

Lemma StronglySorted_port_le_lt (l : list port) :
  StronglySorted port_le l -> NoDup (p_port <$> l) ->
  StronglySorted port_lt l.
Proof.
  induction 1 as [|p l Hs IH Hall]; simpl; [constructor|].
  rewrite NoDup_cons. intros [Hnotin Hnd]. constructor; [by apply IH|].
  rewrite Forall_forall in Hall |- *. intros q Hq.
  specialize (Hall q Hq). unfold port_le in Hall. unfold port_lt.
  assert (p_port p <> p_port q); [|lia].
  intros Heq. apply Hnotin. rewrite Heq. by apply list_elem_of_fmap_2.
Qed.

Lemma StronglySorted_port_less (l : list port) :
  StronglySorted port_le l ->
  StronglySorted (fun a b => port_less b a = false) l.
Proof.
  induction 1 as [|p l Hs IH Hall]; constructor; [done|].
  rewrite Forall_forall in Hall |- *. intros q Hq.
  specialize (Hall q Hq). unfold port_le in Hall. unfold port_less.
  apply Z.ltb_ge. lia.
Qed.

Section PortTies.
Context {S : SortSlice} (h : host).

(** The port numbers of the derived list repeat exactly when some port is
    listened on with two type codes. *)
Lemma fetchPorts_NoDup_ports (conns : list ConnectionStat) :
  Connections_for_ports h = Some conns ->
  Forall uint32_fields conns ->
  NoDup (p_port <$> fetchPorts h) <-> one_type_per_port conns.
Proof.
  intros Hcall Hwf.
  destruct (fetchPorts_kept h conns Hcall Hwf) as (kept & Hperm & Hnd & Hkept).
  rewrite Hperm, <- list_fmap_compose.
  assert (Hin : forall i c, (i, c) ∈ kept -> c ∈ conns /\ Status c = "LISTEN").
  { intros i c (Hl & Hs & _)%Hkept. split; [|done].
    by eapply list_elem_of_lookup_2. }
  split.
  - intros Hports c d [i Hi]%list_elem_of_lookup [j Hj]%list_elem_of_lookup
      Hsc Hsd Hport.
    destruct (first_listener_exists conns i c Hi Hsc) as (i' & e & He & Hec).
    destruct (first_listener_exists conns j d Hj Hsd) as (j' & f & Hf & Hfd).
    assert (Heq : (i', e) = (j', f)).
    { apply (NoDup_fmap_elem_inj _ kept) with (x := (i', e)) (y := (j', f))
        in Hports; [done | by apply Hkept | by apply Hkept |].
      simpl. unfold port_type in Hec, Hfd. congruence. }
    injection Heq as _ ->. unfold port_type in Hec, Hfd. congruence.
  - intros Hone. apply NoDup_fmap_2_strong; [|by eapply NoDup_fmap_1].
    intros [i c] [j d] Hic Hjd Hport. simpl in Hport.
    destruct (Hin i c Hic) as [Hc Hsc], (Hin j d Hjd) as [Hd Hsd].
    assert (Htype : Type_ c = Type_ d) by (by apply Hone).
    apply Hkept in Hic, Hjd.
    destruct (first_listener_unique conns i c j d Hic Hjd) as [-> ->];
      [|done].
    unfold port_type. congruence.
Qed.

End PortTies.

(** C6 as the specification words it fails for a resolver listening on
    port 53 over TCP and UDP: both entries keep their record, so port 53 appears twice and
    the list is not strictly ascending. *)
Lemma tcp_and_udp_listeners_share_a_port :
  let ps := fetchPorts (H := merge_SortSlice) sample_host in
  p_port <$> ps = [53; 53; 80] /\ ~ StronglySorted port_lt ps /\
  forall S : SortSlice,
    ~ StronglySorted port_lt (fetchPorts (H := S) sample_host).
Proof.
  simpl. split; [by vm_compute|]. split.
  - intros Hs. apply StronglySorted_inv in Hs as [_ Hhd].
    apply Forall_inv in Hhd. vm_compute in Hhd. discriminate.
  - intros S Hs. apply StronglySorted_port_lt_NoDup in Hs.
    unfold fetchPorts in Hs. simpl in Hs.
    rewrite sort_Slice_Permutation in Hs. vm_compute in Hs.
    apply NoDup_cons in Hs as [_ Hs]. apply NoDup_cons in Hs as [Hin _].
    apply Hin. apply list_elem_of_here.
Qed.

(** C6, as the code has it. The derived port list is sorted ascending by
    port number: [sort.Slice] leaves no record before one that its
    comparison puts first. It is not always strictly ascending: its
    records are those of the first listeners, one for each port and socket
    type code that is listened on, so two records have the same port number
    when the port is listened on with two type codes, and only then; the
    list is strictly ascending exactly when no port is. *)
Theorem fetchPorts_sorted_by_port_with_ties (S : SortSlice) (h : host) :
  StronglySorted (fun a b => port_less b a = false) (fetchPorts h) /\
  StronglySorted port_le (fetchPorts h) /\
  forall conns,
    Connections_for_ports h = Some conns -> Forall uint32_fields conns ->
    (StronglySorted port_lt (fetchPorts h) <-> one_type_per_port conns) /\
    (NoDup (p_port <$> fetchPorts h) <-> one_type_per_port conns) /\
    exists kept : list (nat * ConnectionStat),
      fetchPorts h ≡ₚ (fun ic => port_record h (snd ic)) <$> kept /\
      NoDup (fst <$> kept) /\
      (forall i c, (i, c) ∈ kept <-> first_listener conns i c) /\
      (forall i c j d, (i, c) ∈ kept -> (j, d) ∈ kept -> i <> j ->
         p_port (port_record h c) = p_port (port_record h d) ->
         Type_ c <> Type_ d) /\
      (forall c, c ∈ conns -> Status c = "LISTEN" ->
         exists i d, (i, d) ∈ kept /\
           p_port (port_record h d) = Port (Laddr c) /\ Type_ d = Type_ c).
Proof.
  split; [apply StronglySorted_port_less, fetchPorts_sorted|].
  split; [apply fetchPorts_sorted|]. intros conns Hcall Hwf.
  pose proof (fetchPorts_NoDup_ports h conns Hcall Hwf) as Hnodup.
  split; [|split; [done|]].
  { rewrite <- Hnodup. split.
    - apply StronglySorted_port_lt_NoDup.
    - apply StronglySorted_port_le_lt, fetchPorts_sorted. }
  destruct (fetchPorts_kept h conns Hcall Hwf) as (kept & Hperm & Hnd & Hkept).
  exists kept. split; [done|]. split; [done|]. split; [done|]. split.
  - intros i c j d Hic Hjd Hne Hport Htype. apply Hne.
    apply Hkept in Hic, Hjd.
    destruct (first_listener_unique conns i c j d Hic Hjd) as [? _]; [|done].
    unfold port_type. simpl in Hport. congruence.
  - intros c [i Hi]%list_elem_of_lookup Hs.
    destruct (first_listener_exists conns i c Hi Hs) as (j & d & Hf & Heq).
    exists j, d. split; [by apply Hkept|].
    unfold port_type in Heq. simpl. by injection Heq.
Qed.

(** ** C5: partial failure *)

Lemma fetchInterfaces_fold (ioMap : gmap string IOCountersStat)
    (nis : list Interface) (acc : list iface) :
  fold_left (fun result ni =>
               if negb (Z.land (Flags ni) FlagLoopback =? 0) then result
               else result ++ [iface_of ioMap ni]) nis acc =
  acc ++ (iface_of ioMap <$> filter not_loopback nis).
Proof.
  revert acc. induction nis as [|ni nis IH]; intros acc; simpl.
  - by rewrite app_nil_r.
  - rewrite IH. rewrite filter_cons. unfold not_loopback at 2.
    destruct (Z.eqb_spec (Z.land (Flags ni) FlagLoopback) 0) as [Heq|Hne];
      simpl.
    + rewrite decide_True by done. rewrite fmap_cons.
      by rewrite <- app_assoc.
    + by rewrite decide_False by done.
Qed.

(** [fetchInterfaces] yields one record, in order, for each interface that
    is not flagged loopback. *)
Lemma fetchInterfaces_spec (h : host) (nis : list Interface) :
  Interfaces h = Some nis ->
  exists ioMap, fetchInterfaces h = iface_of ioMap <$> filter not_loopback nis.
Proof.
  intros Hcall. unfold fetchInterfaces. rewrite Hcall.
  eexists. by rewrite fetchInterfaces_fold.
Qed.

Lemma fetchInterfaces_names (h : host) (nis : list Interface) :
  Interfaces h = Some nis ->
  i_name <$> fetchInterfaces h = Name <$> filter not_loopback nis.
Proof.
  intros Hcall. destruct (fetchInterfaces_spec h nis Hcall) as [ioMap ->].
  rewrite <- list_fmap_compose. done.
Qed.

(** Each list is computed from its own call (and the process table, or
    the interface counters) alone. *)
Lemma fetchConnections_depends (h h' : host) :
  Connections_for_connections h' = Connections_for_connections h ->
  ProcessName h' = ProcessName h ->
  fetchConnections h' = fetchConnections h.
Proof. destruct h, h'. simpl. intros -> ->. reflexivity. Qed.

Lemma fetchPorts_depends `{SortSlice} (h h' : host) :
  Connections_for_ports h' = Connections_for_ports h ->
  ProcessName h' = ProcessName h ->
  fetchPorts h' = fetchPorts h.
Proof. destruct h, h'. simpl. intros -> ->. reflexivity. Qed.

Lemma fetchInterfaces_depends (h h' : host) :
  Interfaces h' = Interfaces h ->
  IOCounters h' = IOCounters h ->
  fetchInterfaces h' = fetchInterfaces h.
Proof. destruct h, h'. simpl. intros -> ->. reflexivity. Qed.

(** C5. When the call behind one of the three lists fails, that list is
    empty in the pass, and the other two lists are what they are for any
    outcome of the failed call: each list is computed from its own call
    alone. In particular, when the connection enumeration fails and the
    interface enumeration succeeds, the Connections list is empty and the
    Interfaces list holds every interface that is not loopback. *)
Theorem fetchData_failure_isolation (S : SortSlice) (h : host) :
  (Connections_for_connections h = None -> d_connections (fetchData h) = []) /\
  (Connections_for_ports h = None -> d_ports (fetchData h) = []) /\
  (Interfaces h = None -> d_interfaces (fetchData h) = []) /\
  (forall h',
     Connections_for_ports h' = Connections_for_ports h ->
     Interfaces h' = Interfaces h -> IOCounters h' = IOCounters h ->
     ProcessName h' = ProcessName h ->
     d_ports (fetchData h') = d_ports (fetchData h) /\
     d_interfaces (fetchData h') = d_interfaces (fetchData h)) /\
  (forall h',
     Connections_for_connections h' = Connections_for_connections h ->
     Interfaces h' = Interfaces h -> IOCounters h' = IOCounters h ->
     ProcessName h' = ProcessName h ->
     d_connections (fetchData h') = d_connections (fetchData h) /\
     d_interfaces (fetchData h') = d_interfaces (fetchData h)) /\
  (forall h',
     Connections_for_connections h' = Connections_for_connections h ->
     Connections_for_ports h' = Connections_for_ports h ->
     ProcessName h' = ProcessName h ->
     d_connections (fetchData h') = d_connections (fetchData h) /\
     d_ports (fetchData h') = d_ports (fetchData h)) /\
  (forall nis,
     Connections_for_connections h = None -> Interfaces h = Some nis ->
     d_connections (fetchData h) = [] /\
     i_name <$> d_interfaces (fetchData h) = Name <$> filter not_loopback nis).
Proof.
  simpl. split; [|split; [|split; [|split; [|split; [|split]]]]].
  - intros Hfail. unfold fetchConnections. by rewrite Hfail.
  - intros Hfail. unfold fetchPorts. by rewrite Hfail.
  - intros Hfail. unfold fetchInterfaces. by rewrite Hfail.
  - intros h' Hp Hi Hio Hn.
    split; [by apply fetchPorts_depends | by apply fetchInterfaces_depends].
  - intros h' Hc Hi Hio Hn.
    split; [by apply fetchConnections_depends
           | by apply fetchInterfaces_depends].
  - intros h' Hc Hp Hn.
    split; [by apply fetchConnections_depends | by apply fetchPorts_depends].
  - intros nis Hfail Hok. split.
    + unfold fetchConnections. by rewrite Hfail.
    + by apply fetchInterfaces_names.
Qed.

(** The end-to-end case on the sample host: the connection enumeration
    fails, the interface enumeration answers with [lo] and [eth0]. *)
Example fetchData_without_connections :
  fetchData (H := merge_SortSlice) sample_host_no_connections =
  {| d_connections := []; d_ports := [];
     d_interfaces :=
       [ {| i_name := "eth0"; i_up := true; i_addrs := ["10.0.0.2/24"];
            i_rx := 1048576; i_tx := 2048 |} ] |}.
Proof. reflexivity. Qed.

(** ** Rendering without a panic *)

Lemma truncate_is_Some (s : string) (max : Z) :
  is_int max -> 0 <= max -> is_Some (truncate s max).
Proof.
  intros Hint Hnn. unfold truncate.
  destruct (Z.leb_spec (len s) max); [eauto|].
  destruct (Z.leb_spec max 3).
  - rewrite slice_to_Some by lia. eauto.
  - rewrite int_sub_id by (int_bounds; lia).
    rewrite slice_to_Some by lia. simpl. eauto.
Qed.

Lemma formatBytes_is_Some (b : Z) : is_uint64 b -> is_Some (formatBytes b).
Proof.
  intros [Hlo Hhi]. unfold formatBytes. unfold unit at 1.
  destruct (Z.ltb_spec b 1024); [eauto|].
  destruct (scale_loop_spec (scale_fuel (b / unit)) b (b / unit) 0)
    as (exp & Hloop & Hexp & _);
    try done; try lia; unfold unit.
  - apply Z.div_le_lower_bound; lia.
  - apply scale_fuel_enough.
  - unfold unit in Hloop. change (1024 ^ (0 + 1)) with 1024 in Hloop.
    rewrite Hloop.
    destruct (unit_prefix_Some exp ltac:(lia)) as [c ->]. simpl. eauto.
Qed.

Lemma index_is_Some {A} (l : list A) (i : Z) :
  0 <= i < slice_len l -> is_Some (index l i).
Proof.
  unfold index, slice_len. intros Hi.
  destruct (Z.leb_spec 0 i); [|lia]. apply lookup_lt_is_Some. lia.
Qed.

Lemma adjustOffset_lists (m : model) (pageSize : Z) :
  m_connections (adjustOffset m pageSize) = m_connections m /\
  m_ports (adjustOffset m pageSize) = m_ports m /\
  m_interfaces (adjustOffset m pageSize) = m_interfaces m.
Proof. unfold adjustOffset. by repeat case_match. Qed.

Section NoPanic.
Context {LG : Lipgloss} {U8 : Utf8}.

Lemma viewTabs_is_Some (m : model) : is_Some (viewTabs m).
Proof. unfold viewTabs. vm_compute seqZ. simpl. eauto. Qed.

Ltac small_int := int_bounds; lia.

Lemma connection_row_is_Some (m : model) (i : Z) :
  0 <= i < slice_len (m_connections m) -> is_Some (connection_row m i).
Proof.
  intros Hi. unfold connection_row.
  destruct (index_is_Some _ i Hi) as [c ->]. simpl.
  destruct (truncate_is_Some (c_local c) 21) as [? ->]; [small_int|lia|].
  destruct (truncate_is_Some (c_remote c) 21) as [? ->]; [small_int|lia|].
  destruct (truncate_is_Some (c_process c) 15) as [? ->]; [small_int|lia|].
  simpl. eauto.
Qed.

Lemma port_row_is_Some (m : model) (i : Z) :
  0 <= i < slice_len (m_ports m) -> is_Some (port_row m i).
Proof.
  intros Hi. unfold port_row.
  destruct (index_is_Some _ i Hi) as [p ->]. simpl.
  destruct (truncate_is_Some (p_process p) 20) as [? ->]; [small_int|lia|].
  simpl. eauto.
Qed.

Lemma interface_row_is_Some (m : model) (i : Z) :
  counters_uint64 m ->
  0 <= i < slice_len (m_interfaces m) -> is_Some (interface_row m i).
Proof.
  intros Hu Hi. unfold interface_row.
  destruct (index_is_Some _ i Hi) as [ifc Hifc]. rewrite Hifc. simpl.
  assert (Hin : ifc ∈ m_interfaces m).
  { unfold index in Hifc. destruct (0 <=? i); [|done].
    by eapply list_elem_of_lookup_2. }
  unfold counters_uint64 in Hu. rewrite Forall_forall in Hu.
  destruct (Hu ifc Hin) as [Hrx Htx].
  destruct (truncate_is_Some
              match i_addrs ifc with a :: _ => a | [] => "-" end 22)
    as [? ->]; [small_int|lia|].
  destruct (formatBytes_is_Some _ Hrx) as [? ->].
  destruct (formatBytes_is_Some _ Htx) as [? ->].
  simpl. eauto.
Qed.

(** With a cursor that is not negative, [View] returns a frame: every
    index the row loop touches is an index of its list. *)
Lemma View_no_panic (now : Time) (m : model) :
  is_int (m_height m) -> m_offset m = 0 -> 0 <= m_cursor m < int_max ->
  counters_uint64 m ->
  is_Some (View now m).
Proof.
  intros Hh Ho Hc Hu. unfold View.
  destruct (m_width m =? 0); [eauto|].
  destruct (viewTabs_is_Some m) as [tabs ->]. simpl.
  assert (Hcontent : is_Some (viewContent m)); [|by destruct Hcontent as [? ->]; eauto].
  unfold viewContent, viewActive.
  fold (page_size m).
  pose proof (adjustOffset_lists m (page_size m)) as (Hlc & Hlp & Hli).
  repeat case_match; simpl; eauto.
  - unfold viewConnections. fold (page_size m).
    assert (Hrows : is_Some (mapM (connection_row (adjustOffset m (page_size m)))
      (loop_indices (visibleRange_of (adjustOffset m (page_size m))
         (slice_len (m_connections (adjustOffset m (page_size m))))
         (page_size m))))).
    { apply mapM_is_Some, Forall_forall. intros i Hi.
      apply connection_row_is_Some.
      by apply (loop_indices_in_range m _ Hh Ho Hc). }
    destruct Hrows as [rows ->]. simpl. eauto.
  - unfold viewPorts. fold (page_size m).
    assert (Hrows : is_Some (mapM (port_row (adjustOffset m (page_size m)))
      (loop_indices (visibleRange_of (adjustOffset m (page_size m))
         (slice_len (m_ports (adjustOffset m (page_size m))))
         (page_size m))))).
    { apply mapM_is_Some, Forall_forall. intros i Hi.
      apply port_row_is_Some.
      by apply (loop_indices_in_range m _ Hh Ho Hc). }
    destruct Hrows as [rows ->]. simpl. eauto.
  - unfold viewInterfaces. fold (page_size m).
    assert (Hrows : is_Some (mapM (interface_row (adjustOffset m (page_size m)))
      (loop_indices (visibleRange_of (adjustOffset m (page_size m))
         (slice_len (m_interfaces (adjustOffset m (page_size m))))
         (page_size m))))).
    { apply mapM_is_Some, Forall_forall. intros i Hi.
      apply interface_row_is_Some.
      - unfold counters_uint64. by rewrite Hli.
      - by apply (loop_indices_in_range m _ Hh Ho Hc). }
    destruct Hrows as [rows ->]. simpl. eauto.
Qed.

(** X22. In every reachable state with a cursor that is not negative,
    [View] returns a frame: no index of a row loop is out of range, no
    slice bound is, and the unit letter of a byte counter exists. *)
Lemma reachable_View_no_panic (now : Time) (m : model) :
  reachable m -> is_int (m_height m) -> 0 <= m_cursor m < int_max ->
  counters_uint64 m ->
  is_Some (View now m).
Proof.
  intros Hreach Hh Hc Hu. apply View_no_panic; try done.
  by apply reachable_offset.
Qed.

End NoPanic.

(** * Further properties of the code *)

(** ** The normaliser *)

Section FetchFacts.
Context (h : host).

Lemma fetchConnections_fold (conns : list ConnectionStat)
    (acc : list connection) (cache : gmap Z string) :
  cache_ok h cache ->
  exists cache',
    fold_left (fetchConnections_step h) conns (acc, cache) =
      (acc ++ (connection_record h <$> filter has_status conns), cache') /\
    cache_ok h cache'.
Proof.
  revert acc cache. induction conns as [|c conns IH]; intros acc cache Hok.
  - exists cache. simpl. by rewrite app_nil_r.
  - simpl. rewrite filter_cons. unfold has_status at 2.
    destruct (String.eqb_spec (Status c) "") as [Hempty|Hfull].
    + rewrite decide_False by (intros Hne; by apply Hne). by apply IH.
    + rewrite decide_True by done.
      pose proof (process_lookup_spec h c cache Hok) as Hproc. simpl in Hproc.
      destruct (if 0 <? Pid c then getProcessName h (Pid c) cache
                else ("", cache)) as [process cache1].
      destruct Hproc as [Hp Hc1]. simpl in Hp, Hc1. subst process.
      destruct (IH (acc ++ [connection_of c (process_of h c)]) cache1 Hc1)
        as (cache' & -> & Hc'). exists cache'. split; [|done].
      rewrite fmap_cons. by rewrite <- app_assoc.
Qed.

(** X1. When the connection enumeration answers, [fetchConnections]
    returns, in the order of the enumeration, one record for each entry
    that has a status and none for the others; the process name of a record
    is the looked-up name for a positive process id and empty otherwise,
    whatever the cache held when the entry was reached. *)
Theorem fetchConnections_spec (conns : list ConnectionStat) :
  Connections_for_connections h = Some conns ->
  fetchConnections h = connection_record h <$> filter has_status conns.
Proof.
  intros Hcall. unfold fetchConnections. rewrite Hcall.
  destruct (fetchConnections_fold conns [] ∅ (cache_ok_empty h))
    as (cache' & -> & _). done.
Qed.

(** X2. [getProcessName] is a cache: after one call for a process id, a
    second call on the cache the first one left returns the same name and
    leaves that cache as it is; the first call changes no other entry of
    the cache, and on a miss it stores the looked-up name, the empty name
    when the lookup fails. *)
Theorem getProcessName_caches (pid : Z) (cache : gmap Z string) :
  let r := getProcessName h pid cache in
  getProcessName h pid (snd r) = r /\
  snd r !! pid = Some (fst r) /\
  (forall q, q <> pid -> snd r !! q = cache !! q) /\
  (cache !! pid = None -> fst r = default "" (ProcessName h pid)) /\
  (forall n, cache !! pid = Some n -> r = (n, cache)).
Proof.
  unfold getProcessName. destruct (cache !! pid) as [n|] eqn:Hl; simpl.
  - rewrite Hl. repeat split; try done. by intros n' [= <-].
  - rewrite lookup_insert_eq. repeat split; try done.
    intros q Hq. by rewrite lookup_insert_ne.
Qed.

End FetchFacts.

Lemma io_map_lookup (counters : list IOCountersStat)
    (ioMap : gmap string IOCountersStat) (name : string) :
  fold_left (fun (ioMap : gmap string IOCountersStat) c =>
               <[io_Name c := c]> ioMap) counters ioMap !! name =
  match last_counter counters name with
  | Some c => Some c
  | None => ioMap !! name
  end.
Proof.
  unfold last_counter. revert ioMap.
  induction counters as [|c counters IH]; intros ioMap; [done|].
  simpl. rewrite IH, filter_cons.
  destruct (decide (io_Name c = name)) as [Heq|Hne].
  - rewrite last_cons. destruct (last (filter _ counters)); [done|].
    rewrite Heq. by rewrite lookup_insert_eq.
  - by rewrite lookup_insert_ne.
Qed.

(** X3. When the interface enumeration answers, [fetchInterfaces] returns,
    in order, one record for each interface that is not flagged loopback:
    its name, whether the up flag is set, the addresses of the interface
    (none when reading them fails), and the byte counters of the last
    counters entry that carries its name, both 0 when there is none. *)
Theorem fetchInterfaces_records (h : host) (nis : list Interface) :
  Interfaces h = Some nis ->
  fetchInterfaces h =
  (fun ni =>
     {| i_name := Name ni;
        i_up := bool_decide (Z.land (Flags ni) FlagUp <> 0);
        i_addrs := default [] (Addrs ni);
        i_rx := from_option BytesRecv 0 (last_counter (IOCounters h) (Name ni));
        i_tx := from_option BytesSent 0 (last_counter (IOCounters h) (Name ni))
     |}) <$> filter not_loopback nis.
Proof.
  intros Hcall. unfold fetchInterfaces. rewrite Hcall, fetchInterfaces_fold.
  simpl. apply list_fmap_ext. intros i ni _. unfold iface_of.
  rewrite io_map_lookup, lookup_empty.
  f_equal.
  - destruct (Z.eqb_spec (Z.land (Flags ni) FlagUp) 0) as [Heq|Hne]; simpl.
    + by rewrite bool_decide_eq_false_2 by (intros Hn; by apply Hn).
    + by rewrite bool_decide_eq_true_2.
  - by destruct (last_counter _ _).
  - by destruct (last_counter _ _).
Qed.

Lemma fetchConnections_spec_witness :
  Connections_for_connections sample_host = Some web_and_dns /\
  length (fetchConnections sample_host) = 4%nat.
Proof.
  assert (Hcall : Connections_for_connections sample_host = Some web_and_dns)
    by reflexivity.
  split; [exact Hcall|].
  rewrite (fetchConnections_spec sample_host web_and_dns Hcall). reflexivity.
Defined.

Lemma fetchInterfaces_records_witness :
  Interfaces sample_host = Some sample_interfaces /\
  i_rx <$> fetchInterfaces sample_host = [1048576].
Proof.
  assert (Hcall : Interfaces sample_host = Some sample_interfaces)
    by reflexivity.
  split; [exact Hcall|].
  rewrite (fetchInterfaces_records sample_host sample_interfaces Hcall).
  reflexivity.
Defined.

(** X4. The Ports list is drawn from the Connections list: when both
    enumerations of a pass return the same entries, every port record has
    a connection record in the listening state with the same label and
    process id, whose local endpoint is the record's address and port.
    The two loops look process names up on their own, at different times,
    so nothing is said of the names: the property holds whatever the
    process table answers to either loop. *)
Theorem fetchPorts_within_fetchConnections
    (S : SortSlice) (h h' : host) (conns : list ConnectionStat) :
  Connections_for_connections h = Some conns ->
  Connections_for_ports h' = Some conns ->
  Forall uint32_fields conns ->
  forall p, p ∈ fetchPorts h' ->
    exists c, c ∈ fetchConnections h /\
      c_state c = "LISTEN" /\ c_proto c = p_proto p /\
      c_pid c = p_pid p /\
      c_local c = formatAddr (p_addr p) (p_port p).
Proof.
  intros Hcc Hcp Hwf p Hp.
  destruct (fetchPorts_kept h' conns Hcp Hwf) as (kept & Hperm & _ & Hkept).
  rewrite Hperm in Hp. apply list_elem_of_fmap in Hp as ([i e] & -> & Hie).
  apply Hkept in Hie as (Hl & Hs & _). simpl.
  exists (connection_record h e). split.
  - unfold fetchConnections. rewrite Hcc.
    destruct (fetchConnections_fold h conns [] ∅ (cache_ok_empty h))
      as (cache' & -> & _). simpl.
    apply list_elem_of_fmap_2, list_elem_of_filter. split.
    + unfold has_status. by rewrite Hs.
    + by eapply list_elem_of_lookup_2.
  - by repeat split.
Qed.

Lemma fetchPorts_within_fetchConnections_witness :
  Connections_for_connections sample_host = Some web_and_dns /\
  Connections_for_ports sample_host_processes_gone = Some web_and_dns /\
  Forall uint32_fields web_and_dns /\
  forall p,
    p ∈ fetchPorts (H := merge_SortSlice) sample_host_processes_gone ->
    exists c, c ∈ fetchConnections sample_host /\
      c_state c = "LISTEN" /\ c_proto c = p_proto p.
Proof.
  assert (Hcc : Connections_for_connections sample_host = Some web_and_dns)
    by reflexivity.
  assert (Hcp : Connections_for_ports sample_host_processes_gone
                = Some web_and_dns) by reflexivity.
  assert (Hwf : Forall uint32_fields web_and_dns).
  { unfold web_and_dns. uint32_literals. }
  split; [exact Hcc|]. split; [exact Hcp|]. split; [exact Hwf|].
  intros p Hp.
  destruct (fetchPorts_within_fetchConnections merge_SortSlice sample_host
              sample_host_processes_gone web_and_dns Hcc Hcp Hwf p Hp)
    as (c & Hc & Hs & Hl & _).
  exists c. split; [exact Hc|]. split; [exact Hs | exact Hl].
Defined.

(** X5. The key under which [fetchPorts] remembers a listening entry
    identifies its port and type code: two entries get the same key exactly
    when they agree on both, so no two different pairs are merged by a
    collision of the printed key. *)
Theorem port_key_identifies_port_and_type (c d : ConnectionStat) :
  uint32_fields c -> uint32_fields d ->
  (port_key c = port_key d <->
   Port (Laddr c) = Port (Laddr d) /\ Type_ c = Type_ d).
Proof.
  intros Hc Hd. rewrite (port_key_inj c d Hc Hd). unfold port_type.
  split; [by intros [= -> ->] | by intros [-> ->]].
Qed.

Lemma port_key_identifies_port_and_type_witness :
  uint32_fields (listener 2 1 "0.0.0.0" 11 2) /\
  uint32_fields (listener 2 12 "0.0.0.0" 1 2) /\
  port_key (listener 2 1 "0.0.0.0" 11 2) <>
  port_key (listener 2 12 "0.0.0.0" 1 2).
Proof.
  assert (Hc : uint32_fields (listener 2 1 "0.0.0.0" 11 2))
    by (unfold uint32_fields; simpl; lia).
  assert (Hd : uint32_fields (listener 2 12 "0.0.0.0" 1 2))
    by (unfold uint32_fields; simpl; lia).
  split; [exact Hc|]. split; [exact Hd|].
  intros Heq.
  apply (port_key_identifies_port_and_type _ _ Hc Hd) in Heq as [Hp _].
  simpl in Hp. lia.
Defined.

(** ** Formatting helpers *)

(** X6. [protoString] returns one of the four labels tcp, udp, tcp6 and
    udp6; it says udp exactly for type code 2 and appends the 6 exactly for
    the family codes 10 and 23, so two sockets get the same label exactly
    when they agree on both tests. Sockets of different type codes other
    than 2 therefore share the label tcp. *)
Theorem protoString_labels (connType family connType' family' : Z) :
  protoString connType family ∈ ["tcp"; "udp"; "tcp6"; "udp6"] /\
  (protoString connType family = protoString connType' family' <->
   (connType = 2 <-> connType' = 2) /\ (is_inet6 family <-> is_inet6 family')).
Proof.
  unfold protoString, is_inet6.
  destruct (Z.eqb_spec connType 2), (Z.eqb_spec connType' 2),
    (Z.eqb_spec family 10), (Z.eqb_spec family 23),
    (Z.eqb_spec family' 10), (Z.eqb_spec family' 23); simpl;
    (split; [key_mem | split; [try discriminate; intros _; lia | intros [? ?]; try reflexivity; exfalso; lia]]).
Qed.

Lemma no_colon_pretty_N_go (x : N) (s : string) :
  no_colon s -> no_colon (pretty_N_go x s).
Proof.
  revert s. induction (N.lt_wf_0 x) as [x _ IH]; intros s Hs.
  destruct (decide (x = 0)%N) as [->|Hx]; [by rewrite pretty_N_go_0|].
  rewrite pretty_N_go_step by lia. apply IH.
  - apply N.div_lt; lia.
  - split; [|done]. unfold pretty_N_char. repeat case_match; discriminate.
Qed.

Lemma no_colon_fmt_d (z : Z) : 0 <= z -> no_colon (fmt_d z).
Proof.
  intros Hz. unfold fmt_d, pretty, pretty_Z.
  destruct z as [|p|p]; [by repeat split| |lia].
  unfold pretty, pretty_positive, pretty, pretty_N.
  case_decide; [by repeat split|]. by apply no_colon_pretty_N_go.
Qed.

Lemma no_colon_app_colon (s t : string) : ~ no_colon (s +:+ ":" +:+ t).
Proof.
  induction s as [|a s IH]; simpl.
  - intros [Hne _]. by apply Hne.
  - intros [_ Hs]. by apply IH.
Qed.

(** A text ends in one way with a colon and a colon-free rest. *)
Lemma colon_split_unique (a a' d d' : string) :
  no_colon d -> no_colon d' ->
  a +:+ ":" +:+ d = a' +:+ ":" +:+ d' -> a = a' /\ d = d'.
Proof.
  intros Hd Hd'. revert a'. induction a as [|x a IH]; intros [|x' a'] Heq;
    simpl in *.
  - injection Heq as Hrest.
    by change ("" +:+ d = "" +:+ d') with (d = d') in Hrest.
  - injection Heq as _ Hrest. change ("" +:+ d) with d in Hrest.
    rewrite Hrest in Hd. by apply no_colon_app_colon in Hd.
  - injection Heq as _ Hrest. change ("" +:+ d') with d' in Hrest.
    rewrite <- Hrest in Hd'. by apply no_colon_app_colon in Hd'.
  - injection Heq as -> Hrest. destruct (IH a' Hrest) as [-> ->]. done.
Qed.

(** X7. The endpoint text of [formatAddr] can be read back: two calls
    print the same text only for the same port and the same address, an
    empty address counting as the wildcard ["*"] it is printed as. The
    text always ends in a colon and the decimal port. *)
Theorem formatAddr_unambiguous (ip ip' : string) (port port' : Z) :
  0 <= port -> 0 <= port' ->
  formatAddr ip port = shown_ip ip +:+ ":" +:+ fmt_d port /\
  shown_ip ip <> "" /\
  (formatAddr ip port = formatAddr ip' port' <->
   shown_ip ip = shown_ip ip' /\ port = port').
Proof.
  intros Hp Hp'. split; [reflexivity|]. split.
  { unfold shown_ip. destruct (String.eqb_spec ip ""); [discriminate | done]. }
  unfold formatAddr. fold (shown_ip ip) (shown_ip ip'). split.
  - intros Heq. apply colon_split_unique in Heq as [Hip Hport];
      [|by apply no_colon_fmt_d..].
    split; [done|]. by apply (inj pretty) in Hport.
  - by intros [-> ->].
Qed.

Lemma formatAddr_unambiguous_witness :
  (0 <= 80 /\ 0 <= 180) /\
  formatAddr "::1" 80 <> formatAddr "::" 180 /\
  formatAddr "" 80 = formatAddr "*" 80.
Proof.
  assert (H80 : 0 <= 80) by lia. assert (H180 : 0 <= 180) by lia.
  split; [split; [exact H80 | exact H180]|]. split.
  - intros Heq.
    destruct (formatAddr_unambiguous "::1" "::" 80 180 H80 H180)
      as (_ & _ & Hiff).
    apply Hiff in Heq as [_ Hport]. lia.
  - destruct (formatAddr_unambiguous "" "*" 80 80 H80 H80) as (_ & _ & Hiff).
    apply Hiff. split; reflexivity.
Defined.

(** X8. [truncate] with a limit that is not negative returns at most
    [max] bytes, exactly [min(len(s), max)] of them, and truncating its
    output again with the same limit changes nothing. *)
Theorem truncate_idempotent (s : string) (max : Z) :
  is_int max -> 0 <= max ->
  exists out,
    truncate s max = Some out /\
    len out = Z.min (len s) max /\
    truncate out max = Some out.
Proof.
  intros Hint Hnn.
  assert (Hfix : forall out, len out <= max -> truncate out max = Some out).
  { intros out Hle. unfold truncate.
    destruct (Z.leb_spec (len out) max); [done | lia]. }
  unfold truncate at 1.
  destruct (Z.leb_spec (len s) max).
  - exists s. split; [done|]. split; [lia | by apply Hfix].
  - destruct (Z.leb_spec max 3).
    + exists (first_bytes max s). rewrite slice_to_Some by lia.
      assert (len (first_bytes max s) = max) by (apply len_first_bytes; lia).
      split; [done|]. split; [lia | apply Hfix; lia].
    + exists (first_bytes (max - 3) s +:+ "...").
      rewrite int_sub_id by (int_bounds; lia).
      rewrite slice_to_Some by lia.
      assert (len (first_bytes (max - 3) s +:+ "...") = max).
      { rewrite len_app, len_first_bytes by lia. change (len "...") with 3.
        lia. }
      split; [done|]. split; [lia | apply Hfix; lia].
Qed.

Lemma truncate_idempotent_witness :
  (is_int 8 /\ 0 <= 8) /\
  exists out, truncate "hello world" 8 = Some out /\
              truncate out 8 = Some out.
Proof.
  assert (H8 : is_int 8) by (int_bounds; lia).
  assert (Hnn : 0 <= 8) by lia.
  split; [split; [exact H8 | exact Hnn]|].
  destruct (truncate_idempotent "hello world" 8 H8 Hnn)
    as (out & Hout & _ & Hagain).
  exists out. split; [exact Hout | exact Hagain].
Defined.

Lemma fmt_d_len_upto_1024 (z : Z) : 0 <= z <= 1024 -> 1 <= len (fmt_d z) <= 4.
Proof.
  intros Hz.
  assert (Hall : forallb (fun z => (1 <=? len (fmt_d z)) &&
                                   (len (fmt_d z) <=? 4))
                         (seqZ 0 1025) = true) by (vm_compute; reflexivity).
  rewrite forallb_forall in Hall.
  assert (Hin : In z (seqZ 0 1025)).
  { apply list_elem_of_In, elem_of_seqZ. lia. }
  apply Hall in Hin. apply andb_prop in Hin as [H1 H4]. lia.
Qed.

Lemma pow_1024_multiple (k e : Z) :
  0 <= e <= 10 * k -> 1024 ^ k = 2 ^ (10 * k - e) * 2 ^ e.
Proof.
  intros He. rewrite <- Z.pow_add_r by lia.
  change 1024 with (2 ^ 10). rewrite <- Z.pow_mul_r by lia. f_equal. lia.
Qed.

(** Rounding to [float64] does not cross a power of 1024 from [2^20] on. *)
Lemma float64_of_uint64_between (b k : Z) :
  0 <= b <= uint64_max -> 2 <= k ->
  (1024 ^ k <= b -> 1024 ^ k <= float64_of_uint64 b) /\
  (b <= 1024 ^ k -> float64_of_uint64 b <= 1024 ^ k).
Proof.
  intros Hb Hk. destruct (Z_lt_le_dec b (2 ^ 53)) as [Hsmall|Hbig].
  { unfold float64_of_uint64. destruct (Z.ltb_spec b (2 ^ 53)); [done | lia]. }
  destruct (float64_of_uint64_nearest b ltac:(lia)) as (He & Hmod & Hnear).
  set (e := Z.log2 b - 52) in *. set (F := float64_of_uint64 b) in *.
  assert (Hpe : 0 < 2 ^ e) by (apply Z.pow_pos_nonneg; lia).
  pose proof (pow_1024_multiple k e ltac:(lia)) as Hpow.
  set (j := 2 ^ (10 * k - e)) in *.
  assert (HF : F = 2 ^ e * (F / 2 ^ e)).
  { apply Z.div_exact; [lia | done]. }
  set (q := F / 2 ^ e) in *.
  split; intros Hle.
  - destruct (Z_lt_le_dec F (1024 ^ k)) as [Hlt|]; [|done]. exfalso.
    assert (q < j) by nia. assert (q + 1 <= j) by lia. nia.
  - destruct (Z_lt_le_dec (1024 ^ k) F) as [Hlt|]; [|done]. exfalso.
    assert (j < q) by nia. assert (j + 1 <= q) by lia. nia.
Qed.

(** X9. For every [uint64], [formatBytes] returns a text of 3 to 9 bytes,
    so a counter never overflows the 12 columns the Interfaces view gives
    it. From 1024 on, the number it prints lies between 1.0 and 1024.0. *)
Theorem formatBytes_width (b : Z) :
  is_uint64 b ->
  exists out,
    formatBytes b = Some out /\ 3 <= len out <= 9 /\
    (1024 <= b ->
     exists tenths c,
       10 <= tenths <= 10240 /\
       out = fmt_d (tenths / 10) +:+ "." +:+ fmt_d (tenths mod 10) +:+
             " " +:+ String c "B").
Proof.
  intros [Hlo Hhi]. unfold formatBytes. unfold unit at 1.
  destruct (Z.ltb_spec b 1024) as [Hsmall|Hbig].
  { eexists. split; [done|]. split; [|lia].
    rewrite len_app. change (len " B") with 2.
    pose proof (fmt_d_len_upto_1024 b ltac:(lia)). lia. }
  destruct (scale_loop_spec (scale_fuel (b / unit)) b (b / unit) 0)
    as (exp & Hloop & Hexp & Hrange);
    try done; try lia; unfold unit.
  { apply Z.div_le_lower_bound; lia. }
  { apply scale_fuel_enough. }
  unfold unit in Hloop. change (1024 ^ (0 + 1)) with 1024 in Hloop.
  rewrite Hloop. destruct (unit_prefix_Some exp ltac:(lia)) as [c ->]. simpl.
  set (F := float64_of_uint64 b). set (div := 1024 ^ (exp + 1)) in *.
  set (tenths := round_half_even (10 * F) div).
  assert (Hdiv : 0 < div) by (apply pow_1024_pos; lia).
  assert (HF : div <= F <= div * 1024).
  { destruct (Z_lt_le_dec b (2 ^ 53)) as [Hs|Hb53].
    - unfold F, float64_of_uint64.
      destruct (Z.ltb_spec b (2 ^ 53)); [|lia].
      replace (exp + 2) with (exp + 1 + 1) in Hrange by lia.
      rewrite (pow_1024_succ (exp + 1)) in Hrange by lia. fold div in Hrange.
      lia.
    - assert (4 <= exp).
      { destruct (Z_le_gt_dec 4 exp); [done|]. exfalso.
        assert (1024 ^ (exp + 2) <= 1024 ^ 5)
          by (apply Z.pow_le_mono_r; lia).
        change (1024 ^ 5) with (2 ^ 50) in *.
        assert (2 ^ 50 < 2 ^ 53) by (apply Z.pow_lt_mono_r; lia). lia. }
      destruct (float64_of_uint64_between b (exp + 1) ltac:(int_bounds; lia)
                  ltac:(lia)) as [Hge _].
      destruct (float64_of_uint64_between b (exp + 2) ltac:(int_bounds; lia)
                  ltac:(lia)) as [_ Hle].
      replace (exp + 2) with (exp + 1 + 1) in * by lia.
      rewrite (pow_1024_succ (exp + 1)) in * by lia. fold div in Hle, Hrange.
      fold F in Hge, Hle. fold div in Hge. lia. }
  pose proof (round_half_even_nearest (10 * F) div Hdiv) as Hnear.
  fold tenths in Hnear.
  assert (Ht : 10 <= tenths <= 10240) by nia.
  eexists. split; [reflexivity|]. split.
  - unfold fmt_f1. fold tenths. rewrite !len_app.
    pose proof (fmt_d_len_upto_1024 (tenths / 10)
                  ltac:(split; [apply Z.div_pos; lia
                               | apply Z.div_le_upper_bound; lia])).
    pose proof (fmt_d_digit (tenths mod 10)
                  ltac:(pose proof (Z.mod_pos_bound tenths 10); lia)) as Hd.
    rewrite Hd. change (len ".") with 1. change (len " ") with 1.
    change (len (String c "B")) with 2. lia.
  - intros _. exists tenths, c. split; [done|].
    unfold fmt_f1. fold tenths. by rewrite !string_app_assoc.
Qed.

Lemma formatBytes_width_witness :
  is_uint64 uint64_max /\
  exists out, formatBytes uint64_max = Some out /\ len out <= 9.
Proof.
  assert (Hu : is_uint64 uint64_max) by (int_bounds; lia).
  split; [exact Hu|].
  destruct (formatBytes_width uint64_max Hu) as (out & Hout & [_ Hlen] & _).
  exists out. split; [exact Hout | exact Hlen].
Defined.

(** ** The navigation state machine *)

Lemma nav_inv_newModel : nav_inv newModel.
Proof.
  unfold nav_inv. split; [|split; [by left|split; [done|simpl; lia]]].
  unfold model_ints, slice_len. simpl. repeat split; int_bounds; lia.
Qed.

Lemma int_rem_tab (t k : Z) :
  is_tab t -> k = 1 \/ k = 2 -> is_tab (int_rem (int_add t k) 3).
Proof.
  unfold is_tab. intros [->|[->| ->]] [->| ->]; vm_compute; auto.
Qed.

Lemma nav_inv_step (m : model) (x : msg) :
  msg_ints x -> nav_inv m -> nav_inv (fst (Update m x)).
Proof.
  intros Hx (Hm & Htab & Ho & Hc).
  pose proof (listLen_bounds m Hm) as HL.
  assert (Hreset : forall t, is_tab t ->
            nav_inv (set_offset 0 (set_cursor 0 (set_tab t m)))).
  { intros t Ht. destruct Hm as (?&?&?&?&?&?&?).
    unfold nav_inv, model_ints. simpl. repeat split; try done;
      int_bounds; lia. }
  assert (Hcur : forall c, is_int c -> -1 <= c <= Z.max (listLen m - 1) 0 ->
            nav_inv (set_cursor c m)).
  { intros c Hc1 Hc2. destruct Hm as (?&?&?&?&?&?&?).
    unfold nav_inv, model_ints. rewrite listLen_set_cursor. simpl.
    tauto. }
  destruct x as [k|w h| |d|]; simpl; try done.
  - unfold handleKey.
    destruct (key_in k ["q"; "ctrl+c"]); [done|].
    destruct (key_in k ["tab"; "l"; "right"]);
      [apply Hreset, int_rem_tab; auto|].
    destruct (key_in k ["shift+tab"; "h"; "left"]);
      [apply Hreset, int_rem_tab; auto|].
    destruct (key_in k ["j"; "down"]).
    { simpl. rewrite clampCursor_spec by done. rewrite listLen_set_cursor.
      simpl. rewrite int_add_id by (int_bounds; lia).
      apply Hcur; int_bounds; lia. }
    destruct (key_in k ["k"; "up"]).
    { simpl. destruct (Z.ltb_spec 0 (m_cursor m)); [|done].
      rewrite int_sub_id by (int_bounds; lia). apply Hcur; int_bounds; lia. }
    destruct (key_in k ["g"; "home"]).
    { simpl. destruct Hm as (?&?&?&?&?&?&?).
      unfold nav_inv, model_ints. simpl. repeat split; try done;
        int_bounds; lia. }
    destruct (key_in k ["G"; "end"]).
    { simpl. rewrite clampCursor_spec by done. rewrite listLen_set_cursor.
      simpl. rewrite int_sub_id by (int_bounds; lia).
      apply Hcur; int_bounds; lia. }
    destruct (key_in k ["1"]); [apply Hreset; by left|].
    destruct (key_in k ["2"]); [apply Hreset; right; by left|].
    destruct (key_in k ["3"]); [apply Hreset; right; by right|]. done.
  - destruct Hm as (?&?&?&?&?&?&?), Hx as [? ?].
    unfold nav_inv, model_ints. simpl.
    change (listLen (set_size w h m)) with (listLen m). tauto.
  - assert (Hd : model_ints (set_data d m)).
    { destruct Hm as (?&?&?&?&?&?&?), Hx as (?&?&?).
      unfold model_ints. simpl. tauto. }
    pose proof (listLen_bounds _ Hd) as HLd.
    rewrite clampCursor_spec by done.
    destruct Hd as (?&?&?&?&?&?&?).
    unfold nav_inv, model_ints. rewrite listLen_set_cursor. simpl in *.
    assert (is_int (Z.min (m_cursor m)
                      (Z.max (listLen (set_data d m) - 1) 0)))
      by (int_bounds; lia).
    assert (-1 <= Z.min (m_cursor m) (Z.max (listLen (set_data d m) - 1) 0)
            <= Z.max (listLen (set_data d m) - 1) 0) by lia.
    tauto.
Qed.

(** X10. Every state the program reaches from [newModel], by any sequence
    of keys, resizes, ticks and data refreshes whose numbers are Go [int]s,
    has one of the three tabs active, a stored offset of 0, and a cursor
    between -1 and [max(listLen - 1, 0)]: the cursor never passes the last
    row, and -1 is the only value below 0 it can take. *)
Theorem run_keeps_nav_inv (xs : list msg) :
  Forall msg_ints xs ->
  let m := run newModel xs in
  is_tab (m_tab m) /\ m_offset m = 0 /\
  -1 <= m_cursor m <= Z.max (listLen m - 1) 0.
Proof.
  intros Hxs. cut (nav_inv (run newModel xs)); [unfold nav_inv; tauto|].
  generalize nav_inv_newModel. generalize newModel.
  induction Hxs as [|x xs Hx _ IH]; intros m Hm; [done|].
  rewrite run_cons. by apply IH, nav_inv_step.
Qed.

Lemma run_keeps_nav_inv_witness :
  Forall msg_ints [WindowSizeMsg 80 24; DataMsg sample_data; KeyMsg "G";
                   KeyMsg "j"; KeyMsg "l"; KeyMsg "G"] /\
  m_cursor (run newModel [WindowSizeMsg 80 24; DataMsg sample_data;
                          KeyMsg "G"; KeyMsg "j"; KeyMsg "l"; KeyMsg "G"])
    = -1.
Proof.
  assert (Hxs : Forall msg_ints
                  [WindowSizeMsg 80 24; DataMsg sample_data; KeyMsg "G";
                   KeyMsg "j"; KeyMsg "l"; KeyMsg "G"]).
  { repeat (apply Forall_cons; split;
              [unfold msg_ints, slice_len; simpl; int_bounds; lia|]).
    apply Forall_nil. exact I. }
  split; [exact Hxs|].
  destruct (run_keeps_nav_inv _ Hxs) as (_ & _ & Hlo & Hhi).
  change (listLen _) with 0 in Hhi. simpl in Hhi.
  assert (Hneg : m_cursor (run newModel [WindowSizeMsg 80 24;
                   DataMsg sample_data; KeyMsg "G"; KeyMsg "j"; KeyMsg "l";
                   KeyMsg "G"]) <= -1) by (vm_compute; discriminate).
  lia.
Defined.

(** From a stored offset of 0 and a cursor that is not negative,
    [adjustOffset] leaves the offset [max(0, cursor - pageSize + 1)]. *)
Lemma render_offset_follows_cursor_aux (m : model) :
  m_offset m = 0 -> is_int (m_height m) -> 0 <= m_cursor m < int_max ->
  m_offset (adjustOffset m (page_size m)) =
  Z.max 0 (m_cursor m - page_size m + 1).
Proof.
  intros Ho Hh Hc.
  destruct (page_size_spec m Hh) as (_ & Hps).
  unfold adjustOffset. rewrite Ho.
  destruct (Z.ltb_spec (m_cursor m) 0); [lia|].
  rewrite (int_add_id 0) by (int_bounds; lia). rewrite Z.add_0_l.
  destruct (Z.leb_spec (page_size m) (m_cursor m)); simpl.
  - rewrite (int_sub_id (m_cursor m)) by (int_bounds; lia).
    rewrite int_add_id by (int_bounds; lia). lia.
  - lia.
Qed.



(** X12. In a reachable state whose cursor points at a row of the list
    and whose viewport has at least 7 rows, the row loop of a table view
    shows the cursor row, shows at most [pageSize] rows, and shows them in
    increasing order without a gap. *)
Theorem cursor_row_is_visible (m : model) (total : Z) :
  reachable m -> is_int (m_height m) -> 7 <= m_height m ->
  0 <= m_cursor m < total -> total <= int_max ->
  let m' := adjustOffset m (page_size m) in
  let rows := loop_indices (visibleRange_of m' total (page_size m)) in
  m_cursor m ∈ rows /\
  Z.of_nat (length rows) = Z.min (page_size m) (total - m_offset m') /\
  rows = seqZ (m_offset m') (Z.of_nat (length rows)).
Proof.
  intros Hreach Hh H7 Hc Htot m' rows.
  assert (Hoff : m_offset m' = Z.max 0 (m_cursor m - page_size m + 1)).
  { apply render_offset_follows_cursor_aux; try done.
    - by apply reachable_offset.
    - int_bounds; lia. }
  destruct (page_size_spec m Hh) as (Hps & Hpsr).
  destruct (content_height_spec m Hh) as (_ & _ & Hch).
  assert (Hps1 : 1 <= page_size m) by (rewrite Hps, Hch; lia).
  assert (Hend : end_ (visibleRange_of m' total (page_size m)) =
                 Z.min (m_offset m' + page_size m) total).
  { unfold visibleRange_of, int_min2. simpl.
    rewrite int_add_id by (int_bounds; lia).
    destruct (Z.ltb_spec (m_offset m' + page_size m) total); lia. }
  assert (Hlen : Z.of_nat (length rows) =
                 Z.min (page_size m) (total - m_offset m')).
  { unfold rows, loop_indices. rewrite length_seqZ, Hend. simpl. lia. }
  split; [|split; [done|]].
  - unfold rows. apply elem_of_loop_indices. rewrite Hend. simpl. lia.
  - rewrite Hlen. unfold rows, loop_indices. rewrite Hend. simpl.
    f_equal. lia.
Qed.

Lemma cursor_row_is_visible_witness :
  let m := run newModel [WindowSizeMsg 80 8; DataMsg sample_data] in
  (reachable m /\ is_int (m_height m) /\ 7 <= m_height m /\
   0 <= m_cursor m < 1 /\ 1 <= int_max) /\
  m_cursor m ∈
    loop_indices (visibleRange_of (adjustOffset m (page_size m)) 1
                                  (page_size m)).
Proof.
  intros m.
  assert (Hr : reachable m) 
    by (by exists [WindowSizeMsg 80 8; DataMsg sample_data]).
  assert (Hh : is_int (m_height m)) by (int_bounds; simpl; lia).
  assert (H7 : 7 <= m_height m) by (simpl; lia).
  assert (Hc : 0 <= m_cursor m < 1) by (simpl; lia).
  assert (Ht : 1 <= int_max) by (int_bounds; lia).
  split; [auto 6|].
  by destruct (cursor_row_is_visible m 1 Hr Hh H7 Hc Ht) as (Hin & _).
Defined.

Lemma set_cursor_same (m : model) : set_cursor (m_cursor m) m = m.
Proof. by destruct m. Qed.

Lemma move_down_step (m : model) (k : string) :
  k ∈ ["j"; "down"] ->
  fst (Update m (KeyMsg k)) =
  clampCursor (set_cursor (int_add (m_cursor m) 1) m).
Proof.
  rewrite !elem_of_cons, elem_of_nil. intros [->|[->|[]]]; reflexivity.
Qed.

Lemma move_up_step (m : model) (k : string) :
  k ∈ ["k"; "up"] ->
  fst (Update m (KeyMsg k)) =
  if 0 <? m_cursor m then set_cursor (int_sub (m_cursor m) 1) m else m.
Proof.
  rewrite !elem_of_cons, elem_of_nil. intros [->|[->|[]]]; reflexivity.
Qed.

(** X13. While the cursor invariant holds, move-down on the last row and
    move-up on the first row leave the model as it is; anywhere else
    move-down moves the cursor one row down and move-up one row up,
    touching nothing else, so each undoes the other. *)
Theorem move_keys_saturate_and_invert (m : model) (down up : string) :
  model_ints m -> cursor_inv m ->
  down ∈ ["j"; "down"] -> up ∈ ["k"; "up"] ->
  (m_cursor m = Z.max (listLen m - 1) 0 ->
     fst (Update m (KeyMsg down)) = m) /\
  (m_cursor m = 0 -> fst (Update m (KeyMsg up)) = m) /\
  (m_cursor m < listLen m - 1 ->
     fst (Update m (KeyMsg down)) = set_cursor (m_cursor m + 1) m /\
     run m [KeyMsg down; KeyMsg up] = m) /\
  (0 < m_cursor m ->
     fst (Update m (KeyMsg up)) = set_cursor (m_cursor m - 1) m /\
     run m [KeyMsg up; KeyMsg down] = m).
Proof.
  intros Hm Hinv Hdown Hup. unfold cursor_inv in Hinv.
  pose proof (listLen_bounds m Hm) as HL.
  assert (Hd : forall m0, listLen m0 = listLen m ->
            0 <= m_cursor m0 <= Z.max (listLen m - 1) 0 ->
            fst (Update m0 (KeyMsg down)) =
            set_cursor (Z.min (m_cursor m0 + 1) (Z.max (listLen m - 1) 0)) m0).
  { intros m0 HL0 Hc0. rewrite (move_down_step m0 down Hdown).
    rewrite clampCursor_spec by (rewrite listLen_set_cursor; lia).
    rewrite listLen_set_cursor, HL0. simpl.
    rewrite int_add_id by (int_bounds; lia). by destruct m0. }
  assert (Hu : forall m0, 0 <= m_cursor m0 <= Z.max (listLen m - 1) 0 ->
            fst (Update m0 (KeyMsg up)) =
            if 0 <? m_cursor m0 then set_cursor (m_cursor m0 - 1) m0 else m0).
  { intros m0 Hc0. rewrite (move_up_step m0 up Hup).
    destruct (Z.ltb_spec 0 (m_cursor m0)); [|done].
    by rewrite int_sub_id by (int_bounds; lia). }
  split; [|split; [|split]].
  - intros Hlast. rewrite Hd by done. rewrite Z.min_r by lia.
    rewrite <- Hlast. apply set_cursor_same.
  - intros Hfirst. rewrite Hu by done.
    destruct (Z.ltb_spec 0 (m_cursor m)); [lia | done].
  - intros Hbelow.
    assert (Hstep : fst (Update m (KeyMsg down)) =
                    set_cursor (m_cursor m + 1) m).
    { rewrite Hd by done. by rewrite Z.min_l by lia. }
    split; [done|]. rewrite !run_cons, run_nil, Hstep.
    rewrite Hu by (simpl; lia). simpl.
    destruct (Z.ltb_spec 0 (m_cursor m + 1)); [|lia].
    replace (m_cursor m + 1 - 1) with (m_cursor m) by lia. by destruct m.
  - intros Hpos.
    assert (Hstep : fst (Update m (KeyMsg up)) =
                    set_cursor (m_cursor m - 1) m).
    { rewrite Hu by done. destruct (Z.ltb_spec 0 (m_cursor m)); [done | lia]. }
    split; [done|]. rewrite !run_cons, run_nil, Hstep.
    rewrite Hd by (rewrite ?listLen_set_cursor; simpl; lia). simpl.
    rewrite Z.min_l by lia.
    replace (m_cursor m - 1 + 1) with (m_cursor m) by lia. by destruct m.
Qed.

Lemma move_keys_saturate_and_invert_witness :
  let m := run newModel [DataMsg sample_data] in
  (model_ints m /\ cursor_inv m) /\
  fst (Update m (KeyMsg "j")) = m /\ fst (Update m (KeyMsg "up")) = m.
Proof.
  intros m.
  assert (Hm : model_ints m).
  { unfold model_ints, slice_len. simpl. int_bounds. lia. }
  assert (Hinv : cursor_inv m) by (unfold cursor_inv; simpl; lia).
  assert (Hj : "j" ∈ ["j"; "down"]) by key_mem.
  assert (Hup : "up" ∈ ["k"; "up"]) by key_mem.
  split; [auto|].
  destruct (move_keys_saturate_and_invert m "j" "up" Hm Hinv Hj Hup)
    as (Hlast & Hfirst & _).
  split; [apply Hlast | apply Hfirst]; reflexivity.
Defined.

(** X14. The program is asked to quit by the keys [q] and [ctrl+c] and by
    nothing else, and these two keys leave the model as it is; a tick asks
    for a fetch and the next tick and leaves the model as it is; every
    other message asks for nothing. *)
Theorem quit_only_on_quit_keys (m : model) (x : msg) :
  (snd (Update m x) = cmdQuit <-> x = KeyMsg "q" \/ x = KeyMsg "ctrl+c") /\
  (snd (Update m x) = cmdQuit -> fst (Update m x) = m) /\
  (snd (Update m x) = cmdFetchAndTick <-> x = tickMsg) /\
  (x = tickMsg -> fst (Update m x) = m).
Proof.
  assert (Hkey : forall k,
            (snd (handleKey m k) = cmdQuit <-> k = "q" \/ k = "ctrl+c") /\
            (snd (handleKey m k) = cmdQuit -> fst (handleKey m k) = m) /\
            snd (handleKey m k) <> cmdFetchAndTick).
  { intros k. unfold handleKey.
    destruct (key_in k ["q"; "ctrl+c"]) eqn:Hq.
    - apply key_in_true in Hq. rewrite !elem_of_cons, elem_of_nil in Hq.
      simpl. split; [|done]. split; [intros _; tauto | done].
    - assert (Hne : ~ (k = "q" \/ k = "ctrl+c")).
      { intros [->| ->]; discriminate. }
      repeat case_match; simpl; (split; [split; [done | tauto] | done]). }
  destruct x as [k|w h| |d|]; simpl.
  - destruct (Hkey k) as (Hiff & Hsame & Hno). split; [|split; [done|split]].
    + rewrite Hiff. split; [intros [->| ->]; auto | intros [[= ->]|[= ->]]; auto].
    + split; [by intros ?%Hno | discriminate].
    + discriminate.
  - repeat split; try discriminate; intros [|]; discriminate.
  - repeat split; try discriminate; try done; intros [|]; discriminate.
  - repeat split; try discriminate; intros [|]; discriminate.
  - repeat split; try discriminate; try done; intros [|]; discriminate.
Qed.

Lemma clampCursor_frame (m : model) :
  m_tab (clampCursor m) = m_tab m /\ m_offset (clampCursor m) = m_offset m /\
  m_width (clampCursor m) = m_width m /\
  m_height (clampCursor m) = m_height m /\
  m_connections (clampCursor m) = m_connections m /\
  m_ports (clampCursor m) = m_ports m /\
  m_interfaces (clampCursor m) = m_interfaces m.
Proof. unfold clampCursor. case_match; simpl; auto 10. Qed.

Lemma handleKey_frame (m : model) (k : string) :
  let m' := fst (handleKey m k) in
  m_connections m' = m_connections m /\ m_ports m' = m_ports m /\
  m_interfaces m' = m_interfaces m /\
  m_width m' = m_width m /\ m_height m' = m_height m /\
  (m_offset m' = m_offset m \/ m_offset m' = 0).
Proof.
  simpl. unfold handleKey.
  repeat (case_match; simpl; try tauto);
    match goal with
    | |- context [clampCursor ?m0] =>
        pose proof (clampCursor_frame m0) as (_ & Ho & Hw & Hh & Hc & Hp & Hi);
        rewrite Ho, Hw, Hh, Hc, Hp, Hi; simpl; tauto
    end.
Qed.

(** X15. No key changes the record lists or the viewport size, and no key
    stores an offset other than the one it found or 0. A data refresh
    replaces the three lists and keeps tab, offset and viewport size; it
    never raises the cursor. A resize changes the viewport size only. *)
Theorem Update_frame (m : model) :
  (forall k, let m' := fst (Update m (KeyMsg k)) in
     m_connections m' = m_connections m /\ m_ports m' = m_ports m /\
     m_interfaces m' = m_interfaces m /\
     m_width m' = m_width m /\ m_height m' = m_height m /\
     (m_offset m' = m_offset m \/ m_offset m' = 0)) /\
  (forall d, let m' := fst (Update m (DataMsg d)) in
     m_connections m' = d_connections d /\ m_ports m' = d_ports d /\
     m_interfaces m' = d_interfaces d /\
     m_tab m' = m_tab m /\ m_offset m' = m_offset m /\
     m_width m' = m_width m /\ m_height m' = m_height m /\
     m_cursor m' <= m_cursor m) /\
  (forall w h, fst (Update m (WindowSizeMsg w h)) = set_size w h m /\
     m_cursor (set_size w h m) = m_cursor m /\
     listLen (set_size w h m) = listLen m).
Proof.
  split; [|split].
  - intros k. apply handleKey_frame.
  - intros d. simpl.
    pose proof (clampCursor_frame (set_data d m))
      as (Ht & Ho & Hw & Hh & Hc & Hp & Hi).
    rewrite Ht, Ho, Hw, Hh, Hc, Hp, Hi. simpl. repeat split.
    unfold clampCursor.
    match goal with
    | |- context [?a <? m_cursor ?m0] =>
        destruct (Z.ltb_spec a (m_cursor m0)); simpl in *; lia
    end.
  - intros w h. by repeat split.
Qed.

(** X16. On the three tabs, tab-backward undoes tab-forward and
    tab-forward undoes tab-backward, and two steps one way are one step the
    other way. *)
Theorem tab_forward_backward_inverse (m : model) (f b : string) :
  is_tab (m_tab m) ->
  f ∈ tab_forward_keys -> b ∈ tab_backward_keys ->
  m_tab (run m [KeyMsg f; KeyMsg b]) = m_tab m /\
  m_tab (run m [KeyMsg b; KeyMsg f]) = m_tab m /\
  m_tab (run m [KeyMsg f; KeyMsg f]) = m_tab (run m [KeyMsg b]) /\
  m_tab (run m [KeyMsg b; KeyMsg b]) = m_tab (run m [KeyMsg f]).
Proof.
  intros Htab Hf Hb. rewrite !run_cons, !run_nil.
  repeat first [ rewrite (tab_forward_key_step _ f Hf)
               | rewrite (tab_backward_key_step _ b Hb) ]. simpl.
  destruct Htab as [->|[->| ->]]; repeat split; reflexivity.
Qed.

Lemma tab_forward_backward_inverse_witness :
  (is_tab (m_tab newModel) /\ "tab" ∈ tab_forward_keys /\
   "shift+tab" ∈ tab_backward_keys) /\
  m_tab (run newModel [KeyMsg "tab"; KeyMsg "shift+tab"]) = tabConnections.
Proof.
  assert (Ht : is_tab (m_tab newModel)) by (left; reflexivity).
  assert (Hf : "tab" ∈ tab_forward_keys) by (unfold tab_forward_keys; key_mem).
  assert (Hb : "shift+tab" ∈ tab_backward_keys)
    by (unfold tab_backward_keys; key_mem).
  split; [auto|].
  by destruct (tab_forward_backward_inverse newModel "tab" "shift+tab"
                 Ht Hf Hb) as (Hfb & _).
Defined.

(** X17. [clampCursor] only ever lowers the cursor, to
    [max(listLen - 1, 0)], and changes nothing else; it leaves a cursor at
    or below that bound alone, a negative one included, and clamping twice
    is clamping once. *)
Theorem clampCursor_lowers_only (m : model) :
  0 <= listLen m <= int_max ->
  clampCursor m = set_cursor (Z.min (m_cursor m) (Z.max (listLen m - 1) 0)) m /\
  m_cursor (clampCursor m) <= m_cursor m /\
  (m_cursor m <= Z.max (listLen m - 1) 0 -> clampCursor m = m) /\
  clampCursor (clampCursor m) = clampCursor m.
Proof.
  intros HL. pose proof (clampCursor_spec m HL) as Hspec.
  split; [done|]. split; [rewrite Hspec; simpl; lia|].
  assert (Hfix : forall m0, 0 <= listLen m0 <= int_max ->
            m_cursor m0 <= Z.max (listLen m0 - 1) 0 -> clampCursor m0 = m0).
  { intros m0 HL0 Hle. rewrite clampCursor_spec by done.
    rewrite Z.min_l by done. apply set_cursor_same. }
  split; [by apply Hfix|].
  apply Hfix; rewrite Hspec, listLen_set_cursor; [done | simpl; lia].
Qed.

Lemma clampCursor_lowers_only_witness :
  let m := set_cursor (-1) (set_data sample_data newModel) in
  0 <= listLen m <= int_max /\ clampCursor m = m.
Proof.
  intros m.
  assert (HL : 0 <= listLen m <= int_max)
    by (unfold listLen, slice_len; simpl; int_bounds; lia).
  split; [exact HL|].
  destruct (clampCursor_lowers_only m HL) as (_ & _ & Hfix & _).
  apply Hfix. simpl. lia.
Defined.

Lemma run_width_0 (m : model) (xs : list msg) :
  m_width m = 0 -> Forall (fun x => ~ sets_width x) xs ->
  m_width (run m xs) = 0.
Proof.
  intros Hw Hxs. revert m Hw.
  induction Hxs as [|x xs Hx _ IH]; intros m Hw; [done|].
  rewrite run_cons. apply IH.
  destruct x as [k|w h| |d|]; simpl; try done.
  - destruct (handleKey_frame m k) as (_ & _ & _ & Hwk & _). by rewrite Hwk.
  - simpl in Hx. destruct (decide (w = 0)); [done | by destruct Hx].
  - by destruct (clampCursor_frame (set_data d m)) as (_ & _ & -> & _).
Qed.

(** X18. Until a resize reports a width other than 0, every render
    returns the placeholder ["loading..."], whatever keys, ticks and data
    refreshes came before: no table is laid out, and no list is indexed,
    also with the cursor at -1. *)
Theorem View_loading_before_first_resize
    (LG : Lipgloss) (U8 : Utf8) (now : Time) (xs : list msg) :
  Forall (fun x => ~ sets_width x) xs ->
  View now (run newModel xs) = Some "loading...".
Proof.
  intros Hxs. unfold View. by rewrite run_width_0.
Qed.

Lemma View_loading_before_first_resize_witness :
  Forall (fun x => ~ sets_width x) [DataMsg sample_data; KeyMsg "3";
                                    KeyMsg "G"; tickMsg] /\
  View (LG := plain_lipgloss) (U8 := ascii_utf8)
       {| Hour := 9; Minute := 5; Second := 12 |}
       (run newModel [DataMsg sample_data; KeyMsg "3"; KeyMsg "G"; tickMsg])
    = Some "loading...".
Proof.
  assert (Hxs : Forall (fun x => ~ sets_width x)
                  [DataMsg sample_data; KeyMsg "3"; KeyMsg "G"; tickMsg]).
  { repeat (apply Forall_cons; split; [simpl; tauto|]).
    apply Forall_nil. exact I. }
  split; [exact Hxs|].
  exact (View_loading_before_first_resize plain_lipgloss ascii_utf8 _ _ Hxs).
Defined.

Lemma wrap_is_int (z : Z) : is_int (wrap z).
Proof.
  unfold is_int, int_min, int_max, wrap.
  pose proof (Z.mod_pos_bound (z + 2 ^ 63) (2 ^ 64)). lia.
Qed.

(** X19. Once [adjustOffset] has run, running it again with the same page
    size changes nothing, provided [cursor + pageSize] does not overflow;
    and a model that satisfies the scroll-follow invariant is left as it
    is. *)
Theorem adjustOffset_idempotent (m : model) (pageSize : Z) :
  is_int (m_cursor m) -> is_int (m_offset m) -> is_int pageSize ->
  1 <= pageSize -> m_cursor m + pageSize <= int_max ->
  adjustOffset (adjustOffset m pageSize) pageSize = adjustOffset m pageSize /\
  (scroll_follow_inv m pageSize -> adjustOffset m pageSize = m).
Proof.
  intros Hc Ho Hp Hpos Hsum.
  assert (Hfix : forall m0, is_int (m_offset m0) -> m_cursor m0 = m_cursor m ->
            scroll_follow_inv m0 pageSize -> adjustOffset m0 pageSize = m0).
  { intros m0 Ho0 Hc0 [Hlo Hhi]. unfold adjustOffset. rewrite Hc0 in *.
    destruct (Z.ltb_spec (m_cursor m) (m_offset m0)); [lia|].
    rewrite int_add_id by (int_bounds; lia).
    destruct (Z.leb_spec (m_offset m0 + pageSize) (m_cursor m)); [lia | done]. }
  split; [|by apply Hfix].
  apply Hfix.
  - unfold adjustOffset. repeat case_match; simpl; try done.
    apply wrap_is_int.
  - unfold adjustOffset. by repeat case_match.
  - by apply adjustOffset_scroll_follow_inv.
Qed.

Lemma adjustOffset_idempotent_witness :
  let m := set_cursor 30 (set_size 80 24 newModel) in
  (is_int (m_cursor m) /\ is_int (m_offset m) /\ is_int 18 /\ 1 <= 18 /\
   m_cursor m + 18 <= int_max) /\
  adjustOffset (adjustOffset m 18) 18 = adjustOffset m 18.
Proof.
  intros m.
  assert (Hc : is_int (m_cursor m)) by (int_bounds; simpl; lia).
  assert (Ho : is_int (m_offset m)) by (int_bounds; simpl; lia).
  assert (Hp : is_int 18) by (int_bounds; lia).
  assert (Hpos : 1 <= 18) by lia.
  assert (Hsum : m_cursor m + 18 <= int_max) by (int_bounds; simpl; lia).
  split; [auto 6|].
  by destruct (adjustOffset_idempotent m 18 Hc Ho Hp Hpos Hsum) as [Hid _].
Defined.

Section EmptyLists.
Context {LG : Lipgloss} {U8 : Utf8}.

Lemma loop_indices_empty_list (m : model) :
  is_int (m_height m) -> m_offset m = 0 -> 0 <= m_cursor m < int_max ->
  loop_indices (visibleRange_of (adjustOffset m (page_size m)) 0
                                (page_size m)) = [].
Proof.
  intros Hh Ho Hc.
  destruct (loop_indices _) as [|i l] eqn:Hl; [done|]. exfalso.
  assert (Hi : i ∈ i :: l) by apply list_elem_of_here. rewrite <- Hl in Hi.
  apply (loop_indices_in_range m 0 Hh Ho Hc) in Hi. lia.
Qed.

(** X20. With an empty list and a cursor that is not negative, each table
    view renders its column header, no row, and the footer with the count
    0: ["0 connections"], ["0 listening ports"], ["0 interfaces"]. *)
Theorem empty_list_renders_header_and_footer (m : model) :
  reachable m -> is_int (m_height m) -> 0 <= m_cursor m < int_max ->
  let h := content_height m in
  (m_connections m = [] ->
     fst <$> viewConnections m h =
     Some (Render styles.header
             (Sprintf_row 7 "PROTO" 21 "LOCAL" 21 "REMOTE" 11 "STATE"
                          "PROCESS") +:+ nl +:+
           Render styles.dim (nl +:+ "0 connections"))) /\
  (m_ports m = [] ->
     fst <$> viewPorts m h =
     Some (Render styles.header
             (Sprintf_row 7 "PORT" 7 "PROTO" 16 "ADDRESS" 8 "PID"
                          "PROCESS") +:+ nl +:+
           Render styles.dim (nl +:+ "0 listening ports"))) /\
  (m_interfaces m = [] ->
     fst <$> viewInterfaces m h =
     Some (Render styles.header
             (Sprintf_row 12 "NAME" 6 "STATE" 22 "ADDRESS" 12 "RX" "TX") +:+
           nl +:+ Render styles.dim (nl +:+ "0 interfaces"))).
Proof.
  intros Hreach Hh Hc h. apply reachable_offset in Hreach as Ho.
  pose proof (loop_indices_empty_list m Hh Ho Hc) as Hrows.
  pose proof (adjustOffset_lists m (page_size m)) as (Hlc & Hlp & Hli).
  unfold h. split; [|split]; intros Hnil.
  - unfold viewConnections. fold (page_size m).
    rewrite Hlc, Hnil. change (slice_len []) with 0. rewrite Hrows. done.
  - unfold viewPorts. fold (page_size m).
    rewrite Hlp, Hnil. change (slice_len []) with 0. rewrite Hrows. done.
  - unfold viewInterfaces. fold (page_size m).
    rewrite Hli, Hnil. change (slice_len []) with 0. rewrite Hrows. done.
Qed.

End EmptyLists.

Lemma empty_list_renders_header_and_footer_witness :
  let m := run newModel [WindowSizeMsg 80 24] in
  (reachable m /\ is_int (m_height m) /\ 0 <= m_cursor m < int_max) /\
  m_connections m = [] /\
  is_Some (viewConnections (LG := plain_lipgloss) (U8 := ascii_utf8)
             m (content_height m)).
Proof.
  intros m.
  assert (Hr : reachable m) by (by exists [WindowSizeMsg 80 24]).
  assert (Hh : is_int (m_height m)) by (int_bounds; simpl; lia).
  assert (Hc : 0 <= m_cursor m < int_max) by (int_bounds; simpl; lia).
  split; [auto|]. split; [reflexivity|].
  destruct (empty_list_renders_header_and_footer
              (LG := plain_lipgloss) (U8 := ascii_utf8) m Hr Hh Hc)
    as (Hv & _).
  specialize (Hv eq_refl).
  destruct (viewConnections m (content_height m)); [eauto | discriminate].
Defined.

(** X21. When the port enumeration answers, the number of records in the
    derived port list, which the footer of the Ports view shows, is the
    number of distinct pairs of port and type code among the listening
    entries. *)
Theorem fetchPorts_count (S : SortSlice) (h : host)
    (conns : list ConnectionStat) :
  Connections_for_ports h = Some conns ->
  Forall uint32_fields conns ->
  length (fetchPorts h) =
  length (remove_dups
            (port_type <$> filter (fun c => Status c = "LISTEN") conns)).
Proof.
  intros Hcall Hwf.
  destruct (fetchPorts_kept h conns Hcall Hwf) as (kept & Hperm & Hnd & Hkept).
  rewrite Hperm, length_fmap.
  rewrite <- (length_fmap (fun ic => port_type (snd ic)) kept).
  apply Permutation_length, NoDup_Permutation.
  - apply NoDup_fmap_2_strong; [|by eapply NoDup_fmap_1].
    intros [i c] [j d] Hic Hjd Heq. simpl in Heq.
    apply Hkept in Hic, Hjd.
    by destruct (first_listener_unique conns i c j d Hic Hjd Heq) as [-> ->].
  - apply NoDup_remove_dups.
  - intros pt. rewrite elem_of_remove_dups, !list_elem_of_fmap. split.
    + intros ([i c] & -> & Hic). apply Hkept in Hic as (Hl & Hs & _).
      exists c. split; [done|]. apply list_elem_of_filter. split; [done|].
      by eapply list_elem_of_lookup_2.
    + intros (c & -> & [Hs [i Hi]%list_elem_of_lookup]%list_elem_of_filter).
      destruct (first_listener_exists conns i c Hi Hs) as (j & d & Hf & Heq).
      exists (j, d). split; [done | by apply Hkept].
Qed.

Lemma fetchPorts_count_witness :
  Connections_for_ports sample_host = Some web_and_dns /\
  Forall uint32_fields web_and_dns /\
  length (fetchPorts (H := merge_SortSlice) sample_host) = 3%nat.
Proof.
  assert (Hcall : Connections_for_ports sample_host = Some web_and_dns)
    by reflexivity.
  assert (Hwf : Forall uint32_fields web_and_dns).
  { unfold web_and_dns. uint32_literals. }
  split; [exact Hcall|]. split; [exact Hwf|].
  rewrite (fetchPorts_count merge_SortSlice sample_host web_and_dns Hcall Hwf).
  reflexivity.
Defined.

(** Witnesses of the lemmas on rendering without a panic and on the
    cursor invariant. *)
Lemma reachable_View_no_panic_witness :
  let m := run newModel [WindowSizeMsg 80 24; DataMsg sample_data] in
  (reachable m /\ is_int (m_height m) /\ 0 <= m_cursor m < int_max /\
   counters_uint64 m) /\
  is_Some (View (LG := plain_lipgloss) (U8 := ascii_utf8)
                {| Hour := 9; Minute := 5; Second := 12 |} m).
Proof.
  intros m.
  assert (Hr : reachable m)
    by (by exists [WindowSizeMsg 80 24; DataMsg sample_data]).
  assert (Hh : is_int (m_height m)) by (int_bounds; simpl; lia).
  assert (Hc : 0 <= m_cursor m < int_max) by (int_bounds; simpl; lia).
  assert (Hu : counters_uint64 m) by apply Forall_nil_2.
  split; [auto 6|].
  exact (reachable_View_no_panic _ m Hr Hh Hc Hu).
Defined.

Lemma cursor_inv_step_witness :
  let m := run newModel [DataMsg sample_data] in
  (model_ints m /\ msg_ints (KeyMsg "G") /\ cursor_inv m /\
   ~ (is_jump_end (KeyMsg "G") /\ listLen m = 0)) /\
  cursor_inv (fst (Update m (KeyMsg "G"))).
Proof.
  intros m.
  assert (Hm : model_ints m).
  { unfold model_ints, slice_len. simpl. int_bounds. lia. }
  assert (Hx : msg_ints (KeyMsg "G")) by exact I.
  assert (Hinv : cursor_inv m) by (unfold cursor_inv; simpl; lia).
  assert (Hnot : ~ (is_jump_end (KeyMsg "G") /\ listLen m = 0)).
  { intros [_ Hlen]. vm_compute in Hlen. discriminate. }
  split; [auto 6|].
  exact (cursor_inv_step m (KeyMsg "G") Hm Hx Hinv Hnot).
Defined.

(** ** C4 on the store *)

Section StoreFacts.
Context {LG : Lipgloss} {U8 : Utf8}.

(** A call with a value receiver whose body returns the store it was
    given, but for the copy, returns the caller's store. *)
Lemma call_by_value_restores {A} (m : model)
    (body : nat -> gmap nat model -> option (A * gmap nat model))
    (result : option A) (st : gmap nat model) :
  (forall a st0, st0 !! a = None ->
     exists m', body a (<[a := m]> st0) =
                (fun r => (r, <[a := m']> st0)) <$> result) ->
  call_by_value m body st = (fun r => (r, st)) <$> result.
Proof.
  intros Hbody. unfold call_by_value.
  assert (Hfresh : st !! fresh (dom st) = None).
  { apply not_elem_of_dom, is_fresh. }
  destruct (Hbody _ st Hfresh) as [m' ->].
  destruct result as [r|]; simpl; [|done].
  by rewrite delete_insert_id.
Qed.

Lemma call_table_view_writes (view : model -> Z -> option (string * model))
    (a : nat) (height : Z) (m : model) (st0 : gmap nat model) :
  call_table_view view a height (<[a := m]> st0) =
  (fun r => (fst r, <[a := snd r]> st0)) <$> view m height.
Proof.
  unfold call_table_view. rewrite lookup_insert_eq. simpl.
  destruct (view m height) as [[s m']|]; simpl; [|done].
  by rewrite insert_insert_eq.
Qed.

(** [m.viewContent()] returns what [viewContent m] is and leaves the store
    of its caller as it was: the offset its table view writes goes to the
    copy. *)
Lemma viewContent_call (m : model) (st : gmap nat model) :
  call_by_value m viewContent_body st = (fun s => (s, st)) <$> viewContent m.
Proof.
  apply call_by_value_restores. intros a st0 Hnone.
  unfold viewContent_body, viewContent, viewActive.
  rewrite lookup_insert_eq. simpl.
  repeat case_match; rewrite ?call_table_view_writes;
    try (match goal with
         | |- context [?view m (content_height m)] =>
             destruct (view m (content_height m)) as [[s m']|]; simpl;
             [by exists m' | by exists m]
         end).
  by exists m.
Qed.

Lemma View_body_call (now : Time) (m : model) (st : gmap nat model) :
  call_by_value m (View_body now) st = (fun f => (f, st)) <$> View now m.
Proof.
  apply call_by_value_restores. intros a st0 Hnone. exists m.
  unfold View_body, View. rewrite lookup_insert_eq.
  unfold mbind, option_bind. cbv beta iota.
  destruct (m_width m =? 0); [reflexivity|].
  destruct (viewTabs m) as [tabs|]; [|reflexivity].
  rewrite viewContent_call.
  destruct (viewContent m) as [content|]; [|reflexivity].
  simpl. rewrite lookup_insert_eq. reflexivity.
Qed.

End StoreFacts.

(** The write that rendering makes: on a list of 40 rows with the cursor
    on row 30, the Connections view called through a pointer leaves the
    offset 13 in the variable it is given. *)
Example table_view_writes_offset :
  snd <$> call_table_view
            (viewConnections (LG := plain_lipgloss) (U8 := ascii_utf8))
            7%nat (content_height long_list_model)
            {[ 7%nat := long_list_model ]}
  = Some {[ 7%nat := set_offset 13 long_list_model ]}.
Proof.
  change ({[ 7%nat := long_list_model ]} : gmap nat model)
    with (<[ 7%nat := long_list_model ]> (∅ : gmap nat model)).
  rewrite call_table_view_writes.
  assert (Hm : snd <$> viewConnections (LG := plain_lipgloss)
                         (U8 := ascii_utf8) long_list_model
                         (content_height long_list_model)
               = Some (set_offset 13 long_list_model)) by (by vm_compute).
  destruct (viewConnections _ _) as [[s m']|]; simpl in *; [|done].
  by injection Hm as ->.
Qed.

(** C4, as the code has it. Rendering is a function of the navigation
    state, the three record lists and the wall clock that the header
    reads. A call [m.View()] on the model kept at an address returns the
    frame [View now m], which depends on nothing else in memory: equal
    state, lists and clock give equal frames wherever the models are kept.
    The call leaves memory as it was, the model at the address with its
    tab, cursor, offset, width, height and lists included: what a table
    view writes is the offset of the copy [viewContent] runs on, and the
    copy is dropped. *)
Theorem run_View_function_of_model_and_clock
    (LG : Lipgloss) (U8 : Utf8) (now : Time) (p : nat) (m : model)
    (st : gmap nat model) :
  st !! p = Some m ->
  run_View now p st = (fun frame => (frame, st)) <$> View now m /\
  (forall frame st', run_View now p st = Some (frame, st') ->
     st' = st /\ st' !! p = Some m) /\
  (forall p2 st2, st2 !! p2 = Some m ->
     fst <$> run_View now p2 st2 = fst <$> run_View now p st) /\
  (forall s m', viewActive m = Some (Some (s, m')) ->
     m' = set_offset (m_offset m') m).
Proof.
  intros Hp.
  assert (Hrun : forall p0 st0, st0 !! p0 = Some m ->
            run_View now p0 st0 = (fun frame => (frame, st0)) <$> View now m).
  { intros p0 st0 Hp0. unfold run_View. rewrite Hp0. simpl.
    apply View_body_call. }
  split; [by apply Hrun|]. split; [|split].
  - intros frame st'. rewrite (Hrun p st Hp).
    destruct (View now m); simpl; [|done]. by intros [= _ <-].
  - intros p2 st2 Hp2. rewrite (Hrun p2 st2 Hp2), (Hrun p st Hp).
    by destruct (View now m).
  - intros s m' Hv. apply viewActive_writes_offset_only in Hv as ->.
    unfold adjustOffset. repeat case_match; by destruct m.
Qed.

Lemma run_View_function_of_model_and_clock_witness :
  let st : gmap nat model :=
    <[ 7%nat := long_list_model ]> (<[ 2%nat := newModel ]> ∅) in
  st !! 7%nat = Some long_list_model /\
  exists frame,
    run_View (LG := plain_lipgloss) (U8 := ascii_utf8)
             {| Hour := 9; Minute := 5; Second := 12 |} 7%nat st
    = Some (frame, st).
Proof.
  intros st.
  assert (Hp : st !! 7%nat = Some long_list_model) by apply lookup_insert_eq.
  split; [exact Hp|].
  destruct (run_View_function_of_model_and_clock plain_lipgloss ascii_utf8
              {| Hour := 9; Minute := 5; Second := 12 |} 7%nat
              long_list_model st Hp) as (Hrun & _).
  rewrite Hrun.
  assert (Hv : is_Some (View (LG := plain_lipgloss) (U8 := ascii_utf8)
                          {| Hour := 9; Minute := 5; Second := 12 |}
                          long_list_model)).
  { apply View_no_panic.
    - int_bounds. simpl. lia.
    - reflexivity.
    - int_bounds. simpl. lia.
    - apply Forall_nil_2. }
  destruct Hv as [frame ->]. exists frame. reflexivity.
Defined.
